(** * AESOPNE: the Farcade integration build scripts

    A shallow embedding of the two build scripts of the repository,
    [remixIntegration.js] and its older sibling (the second script, called
    [FarcadeIntegration] below), and the properties of their specification.

    Both scripts read [index.html], patch it with [String.prototype.replace]
    over regular-expression literals, and write [index.farcade.html].

    Modelling decisions.
    - A JavaScript string is a sequence of UTF-16 code units: a [Document]
      is a [list N].  The regular expressions of the scripts carry no [u]
      flag, so they work on code units, and the class [\s] is the one of
      ECMAScript (WhiteSpace and LineTerminator).
    - Files hold text: [fs.readFileSync (path, 'utf8')] and
      [fs.writeFileSync] are modelled on decoded text, the UTF-8 codec is
      not modelled.
    - [console.log] and [console.error] append to a console transcript;
      the text of a caught [error.message] is left out. *)

From Stdlib Require Import NArith Ascii String.
From stdpp Require Import base list strings gmap.

Local Open Scope string_scope.
Local Open Scope list_scope.
Local Open Scope N_scope.

(** ** Text *)

Abbreviation char := N (only parsing).
Abbreviation Document := (list N) (only parsing).

(** The code units of an ASCII source literal. *)
Definition lit (s : string) : Document :=
  N_of_ascii <$> list_ascii_of_string s.

Definition LF : char := 10.
Definition DQUOTE : char := 34.

(** A template literal, one source line per element: the lines joined
    by line feeds. *)
Fixpoint template (ls : list string) : Document :=
  match ls with
  | [] => []
  | l :: ls' =>
      match ls' with
      | [] => lit l
      | _ :: _ => lit l ++ LF :: template ls'
      end
  end.

(** [is_prefix p s]: [s] starts with [p]. *)
Fixpoint is_prefix (p s : Document) : bool :=
  match p, s with
  | [], _ => true
  | _ :: _, [] => false
  | a :: p', b :: s' => (a =? b) && is_prefix p' s'
  end.

(** [String.prototype.includes]. *)
Fixpoint includes (needle s : Document) : bool :=
  is_prefix needle s ||
  match s with
  | [] => false
  | _ :: s' => includes needle s'
  end.

(** The number of positions of [s] at which [needle] occurs. *)
Fixpoint occurrences (needle s : Document) : nat :=
  ((if is_prefix needle s then 1 else 0) +
   match s with
   | [] => 0
   | _ :: s' => occurrences needle s'
   end)%nat.

(** ** Regular expressions

    The fragment of ECMAScript regular expressions the scripts use:
    literal text, a character class under [*], [*?] or [+], and capture
    groups in sequence.  Matching is the backtracking search of the
    language specification, written with continuations. *)

Module RegExp.

Inductive cls :=
| AnyChar                (* [\s\S] *)
| WhiteSpace             (* \s *)
| NotChar (c : char).    (* [^c] *)

(** [\s]: WhiteSpace and LineTerminator code points. *)
Definition isWhiteSpace (c : char) : bool :=
  (c =? 9) || (c =? 10) || (c =? 11) || (c =? 12) || (c =? 13) ||
  (c =? 32) || (c =? 160) || (c =? 5760) ||
  ((8192 <=? c) && (c <=? 8202)) ||
  (c =? 8232) || (c =? 8233) || (c =? 8239) || (c =? 8287) ||
  (c =? 12288) || (c =? 65279).

Definition cls_test (k : cls) (c : char) : bool :=
  match k with
  | AnyChar => true
  | WhiteSpace => isWhiteSpace c
  | NotChar x => negb (c =? x)
  end.

Inductive atom :=
| Lit (s : Document)          (* literal text *)
| StarGreedy (k : cls)        (* k* *)
| StarLazy (k : cls)          (* k*? *)
| PlusGreedy (k : cls).       (* k+ *)

Inductive node :=
| Plain (a : atom)
| Capture (body : list atom).   (* ( ... ) *)

Definition regex := list node.

Fixpoint strip_prefix (p s : Document) : option Document :=
  match p, s with
  | [], _ => Some s
  | _ :: _, [] => None
  | a :: p', b :: s' => if a =? b then strip_prefix p' s' else None
  end.

Section Backtracking.
Context {R : Type}.

(** [k*?]: the continuation first, one more character on failure. *)
Fixpoint lazy_star (k : cls) (cont : Document -> option R)
    (s : Document) : option R :=
  match cont s with
  | Some r => Some r
  | None =>
      match s with
      | c :: s' => if cls_test k c then lazy_star k cont s' else None
      | [] => None
      end
  end.

(** [k*]: as many characters as possible first. *)
Fixpoint greedy_star (k : cls) (cont : Document -> option R)
    (s : Document) : option R :=
  match s with
  | c :: s' =>
      if cls_test k c then
        match greedy_star k cont s' with
        | Some r => Some r
        | None => cont s
        end
      else cont s
  | [] => cont s
  end.

Definition m_atom (a : atom) (cont : Document -> option R)
    (s : Document) : option R :=
  match a with
  | Lit p =>
      match strip_prefix p s with
      | Some s' => cont s'
      | None => None
      end
  | StarGreedy k => greedy_star k cont s
  | StarLazy k => lazy_star k cont s
  | PlusGreedy k =>
      match s with
      | c :: s' => if cls_test k c then greedy_star k cont s' else None
      | [] => None
      end
  end.

Fixpoint m_atoms (body : list atom) (cont : Document -> option R)
    (s : Document) : option R :=
  match body with
  | [] => cont s
  | a :: body' => m_atom a (m_atoms body' cont) s
  end.
End Backtracking.

(** The part of [s] consumed when [rest] is what is left of it. *)
Definition consumed (s rest : Document) : Document :=
  take (length s - length rest) s.

(** A match at the start of [s]: the captures and the rest of [s]. *)
Fixpoint m_nodes (re : regex) (s : Document)
    : option (list Document * Document) :=
  match re with
  | [] => Some ([], s)
  | Plain a :: re' => m_atom a (m_nodes re') s
  | Capture body :: re' =>
      m_atoms body
        (fun rest =>
           match m_nodes re' rest with
           | Some (caps, fin) => Some (consumed s rest :: caps, fin)
           | None => None
           end) s
  end.

Record result := Result {
  before : Document;          (* the text left of the match *)
  matched : Document;         (* the matched text *)
  captures : list Document;   (* the capture groups, in order *)
  after : Document            (* the text right of the match *)
}.

(** [RegExp.prototype.exec] of a pattern without flags: the match at
    the leftmost position that has one. *)
Fixpoint exec (re : regex) (s : Document) : option result :=
  match m_nodes re s with
  | Some (caps, rest) =>
      Some (Result [] (consumed s rest) caps rest)
  | None =>
      match s with
      | [] => None
      | c :: s' =>
          match exec re s' with
          | Some r =>
              Some (Result (c :: before r) (matched r) (captures r)
                      (after r))
          | None => None
          end
      end
  end.

(** [RegExp.prototype.test]. *)
Definition test (re : regex) (s : Document) : bool :=
  match exec re s with Some _ => true | None => false end.

(** [s.replace(re, f)] for a pattern without the [g] flag and a
    replacer function [f (match, p1, ..., pn)]: the first match is
    replaced by what [f] returns, taken as it is. *)
Definition replace (re : regex)
    (f : Document -> list Document -> Document) (s : Document)
    : Document :=
  match exec re s with
  | Some r => before r ++ f (matched r) (captures r) ++ after r
  | None => s
  end.

(** [s.replace(re, text)] for a replacement string.  A [$] in the
    replacement string would start a substitution pattern; this model
    is for replacement strings without one. *)
Definition replace_text (re : regex) (text : Document) (s : Document)
    : Document :=
  replace re (fun _ _ => text) s.

End RegExp.

(** ** The replacer functions of the scripts *)

(** [(match) => `${match}<hook>`]: the matched text, then the hook. *)
Definition appending (hook : Document)
    (matched : Document) (_ : list Document) : Document :=
  matched ++ hook.

(** [(match, methodBody, closingBrace) =>
    `${methodBody}<hook>${closingBrace}`]: the hook between the two
    capture groups. *)
Definition between (hook : Document)
    (_ : Document) (groups : list Document) : Document :=
  let methodBody := groups !!! 0%nat in
  let closingBrace := groups !!! 1%nat in
  methodBody ++ hook ++ closingBrace.

(** ** The console *)

Inductive level := LOG | ERROR.

Definition entry : Type := level * string.

(** A computation that prints on the console and returns a value. *)
Record Console (A : Type) := Said {
  value : A;
  transcript : list entry
}.
Arguments Said {A} _ _.
Arguments value {A} _.
Arguments transcript {A} _.

#[global] Instance Console_ret : MRet Console := fun A x => Said x [].
#[global] Instance Console_bind : MBind Console := fun A B f m =>
  let r := f (value m) in Said (value r) (transcript m ++ transcript r).

Definition console_log (msg : string) : Console unit := Said tt [(LOG, msg)].

(** ** The file system and the run *)

Inductive write_fault :=
| NoFault                 (* the write succeeds *)
| FailsUntouched          (* it fails before the file is opened *)
| FailsAfter (n : nat).   (* it fails after [n] code units were written *)

Record World := {
  files : gmap string (list N);        (* the regular files, by path *)
  read_denied : string -> bool;        (* the paths that cannot be read *)
  write_faults : string -> write_fault;
  console : list entry
}.

Definition say (l : level) (msg : string) (w : World) : World :=
  {| files := files w; read_denied := read_denied w;
     write_faults := write_faults w; console := console w ++ [(l, msg)] |}.

Definition says (es : list entry) (w : World) : World :=
  {| files := files w; read_denied := read_denied w;
     write_faults := write_faults w; console := console w ++ es |}.

Definition store (path : string) (content : Document) (w : World) : World :=
  {| files := <[path := content]> (files w); read_denied := read_denied w;
     write_faults := write_faults w; console := console w |}.

(** How a call completes. *)
Inductive completion (A : Type) :=
| Returns (v : A)
| Throws.
Arguments Returns {A} _.
Arguments Throws {A}.

(** [fs.readFileSync (path, 'utf8')]: throws when the file is absent or
    unreadable. *)
Definition fs_readFileSync (path : string) (w : World)
    : completion Document :=
  if read_denied w path then Throws
  else match files w !! path with
       | Some text => Returns text
       | None => Throws
       end.

(** [fs.writeFileSync (path, content)]: creates or overwrites the file;
    a failing write throws, and leaves the file as it was or holding the
    part already written. *)
Definition fs_writeFileSync (path : string) (content : Document) (w : World)
    : completion unit * World :=
  match write_faults w path with
  | NoFault => (Returns tt, store path content w)
  | FailsUntouched => (Throws, w)
  | FailsAfter n => (Throws, store path (take n content) w)
  end.

Record Config := { indexTemplate : string; outputFile : string }.

(** [!v] for a value that is a string or [null]: [null] and the empty
    string are falsy. *)
Definition falsy (v : option Document) : bool :=
  match v with
  | None => true
  | Some [] => true
  | Some (_ :: _) => false
  end.

(** [readFile], [writeFile] and [integrateFarcade] are the same text in
    both scripts; they are embedded once, [integrateFarcade] over the
    [config] and the two injection functions of the script. *)
Section Driver.

(** [readFile]: the text of the file, or [null] after reporting the
    failure. *)
Definition readFile (filePath : string) (w : World)
    : completion (option Document) * World :=
  match fs_readFileSync filePath w with
  | Returns text => (Returns (Some text), w)
  | Throws =>
      (Returns None, say ERROR ("Error reading file " +:+ filePath +:+ ":") w)
  end.

(** [writeFile]: both branches of the [try] fall through to the end of
    the function, which returns [undefined]. *)
Definition writeFile (filePath : string) (content : Document) (w : World)
    : completion unit * World :=
  match fs_writeFileSync filePath content w with
  | (Returns _, w') =>
      (Returns tt, say LOG ("Successfully created file: " +:+ filePath) w')
  | (Throws, w') =>
      (Returns tt, say ERROR ("Error writing file " +:+ filePath +:+ ":") w')
  end.

Variable config : Config.
Variable injectFarcadeSDK : Document -> Console Document.
Variable injectFarcadeGameLogic : Document -> Console Document.

Definition closing_remarks : list entry :=
  [ (LOG, "AESOPNE Farcade integration complete! Output file: "
            +:+ outputFile config);
    (LOG, "The integrated version will:");
    (LOG, "- Signal ready when the title screen is interactive");
    (LOG, "- Submit height in meters as the score on game over");
    (LOG, "- Handle play again requests by restarting the game");
    (LOG, "- Handle mute/unmute requests via Phaser sound manager") ].

(** [integrateFarcade]: the function has no [await]; it runs to its end
    and its promise is fulfilled with [undefined]. *)
Definition integrateFarcade (w : World) : completion unit * World :=
  let w := say LOG "Starting AESOPNE Farcade integration process..." w in
  match readFile (indexTemplate config) w with
  | (Throws, w) => (Throws, w)
  | (Returns htmlContent, w) =>
      if falsy htmlContent then
        (Returns tt, say ERROR "Could not read HTML template. Aborting." w)
      else
        let htmlContent := default [] htmlContent in
        let step1 := injectFarcadeSDK htmlContent in
        let w := says (transcript step1) w in
        let htmlContent := value step1 in
        let step2 := injectFarcadeGameLogic htmlContent in
        let w := says (transcript step2) w in
        let htmlContent := value step2 in
        match writeFile (outputFile config) htmlContent w with
        | (Throws, w) => (Throws, w)
        | (Returns _, w) => (Returns tt, says closing_remarks w)
        end
  end.

End Driver.

(** The text the game-over guards look for. *)
Definition gameOverCall : Document :=
  lit "window.FarcadeSDK.singlePlayer.actions.gameOver".

(** ** remixIntegration.js *)

Module RemixIntegration.
Import RegExp.

Definition config : Config :=
  {| indexTemplate := "index.html"; outputFile := "index.farcade.html" |}.

Definition farcadeScriptTag : Document :=
  lit "    <script src=" ++ [DQUOTE]
  ++ lit "https://cdn.jsdelivr.net/npm/@farcade/game-sdk@latest/dist/index.min.js"
  ++ [DQUOTE] ++ lit "></script>".

(** [/<\/head>/] *)
Definition headPattern : regex := [Plain (Lit (lit "</head>"))].

Definition injectFarcadeSDK (html : Document) : Console Document :=
  console_log "Injecting Farcade SDK script tag...";;
  mret (replace_text headPattern
          (farcadeScriptTag ++ [LF] ++ lit "</head>") html).

(** [/(showTitleScreen\(\) \{[\s\S]*?this\.gameElements\.forEach\(element => element\.setVisible\(false\)\);)/] *)
Definition showTitleScreenPattern : regex :=
  [Capture
     [Lit (lit "showTitleScreen() {");
      StarLazy AnyChar;
      Lit (lit "this.gameElements.forEach(element => element.setVisible(false));")]].

Definition readyHook : Document := template [
  "";
  "";
  "                // Farcade SDK: Signal that the game is fully loaded and ready to play";
  "                if (window.FarcadeSDK) {";
  "                    window.FarcadeSDK.singlePlayer.actions.ready();";
  "                    console.log('Farcade SDK: Game ready signal sent.');";
  "                }"
  ].

(** [/(this\.playButton\.setPosition\([^)]+\);\s*this\.playButton\.setInteractive\(\);)/] *)
Definition gameOverScreenPattern : regex :=
  [Capture
     [Lit (lit "this.playButton.setPosition(");
      PlusGreedy (NotChar 41);
      Lit (lit ");");
      StarGreedy WhiteSpace;
      Lit (lit "this.playButton.setInteractive();")]].

Definition gameOverHook : Document := template [
  "";
  "";
  "                // Farcade SDK: Hide our play button and call SDK gameOver after a delay";
  "                if (window.FarcadeSDK) {";
  "                    this.playButton.setVisible(false); // Hide our button since Farcade UI takes over";
  "                    ";
  "                    this.time.delayedCall(4000, () => {";
  "                        window.FarcadeSDK.singlePlayer.actions.gameOver({ score: this.maxHeight });";
  "                        console.log('Farcade SDK: Game over signal sent with score:', this.maxHeight);";
  "                    });";
  "                }"
  ].

(** [/(this\.playButton\.removeAllListeners\(\);\s*this\.playButton\.on\('pointerdown', \(\) => \{[\s\S]*?this\.startGame\(\);[\s\S]*?\}\);)/] *)
Definition alternativePattern : regex :=
  [Capture
     [Lit (lit "this.playButton.removeAllListeners();");
      StarGreedy WhiteSpace;
      Lit (lit "this.playButton.on('pointerdown', () => {");
      StarLazy AnyChar;
      Lit (lit "this.startGame();");
      StarLazy AnyChar;
      Lit (lit "});")]].

Definition alternativeHook : Document := template [
  "";
  "";
  "                // Farcade SDK: Hide button and call gameOver (alternative injection)";
  "                if (window.FarcadeSDK) {";
  "                    this.playButton.setVisible(false); // Hide our button since Farcade UI takes over";
  "                    ";
  "                    this.time.delayedCall(4000, () => {";
  "                        window.FarcadeSDK.singlePlayer.actions.gameOver({ score: this.maxHeight });";
  "                        console.log('Farcade SDK: Game over signal sent with score (alternative):', this.maxHeight);";
  "                    });";
  "                }"
  ].

(** [/(showGameOverScreen\(\) \{[\s\S]*?this\.playButton\.on\('pointerdown'[\s\S]*?\}\);)(\s*\})/] *)
Definition endOfMethodPattern : regex :=
  [Capture
     [Lit (lit "showGameOverScreen() {");
      StarLazy AnyChar;
      Lit (lit "this.playButton.on('pointerdown'");
      StarLazy AnyChar;
      Lit (lit "});")];
   Capture
     [StarGreedy WhiteSpace;
      Lit (lit "}")]].

Definition endOfMethodHook : Document := template [
  "";
  "";
  "                // Farcade SDK: Hide button and call gameOver (end-of-method injection)";
  "                if (window.FarcadeSDK) {";
  "                    this.playButton.setVisible(false); // Hide our button since Farcade UI takes over";
  "                    ";
  "                    this.time.delayedCall(4000, () => {";
  "                        window.FarcadeSDK.singlePlayer.actions.gameOver({ score: this.maxHeight });";
  "                        console.log('Farcade SDK: Game over signal sent with score (end-of-method):', this.maxHeight);";
  "                    });";
  "                }"
  ].

(** [/(const game = new Phaser\.Game\(config\);)/] *)
Definition phaserGameInstancePattern : regex :=
  [Capture [Lit (lit "const game = new Phaser.Game(config);")]].

Definition eventHandlersHook : Document := template [
  "";
  "";
  "        // Farcade SDK: Register event handlers for 'play_again' and 'toggle_mute'";
  "        if (window.FarcadeSDK) {";
  "            // Handle play again requests from Farcade";
  "            window.FarcadeSDK.on('play_again', () => {";
  "                console.log('Farcade SDK: Play again requested.');";
  "                const activeScene = game.scene.getScene('VerticalLauncher');";
  "                if (activeScene && activeScene.startGame) {";
  "                    // IMPORTANT: Clean up game over elements before restarting";
  "                    if (activeScene.hideGameOverElements) {";
  "                        activeScene.hideGameOverElements();";
  "                        console.log('Farcade SDK: Game over elements cleaned up.');";
  "                    }";
  "                    activeScene.startGame();";
  "                    console.log('Farcade SDK: Game restarted.');";
  "                } else {";
  "                    console.warn('Farcade SDK: Could not find active scene to restart game.');";
  "                }";
  "            });";
  "";
  "            // Handle mute/unmute requests from Farcade";
  "            window.FarcadeSDK.on('toggle_mute', (data) => {";
  "                console.log('Farcade SDK: Mute toggle requested, isMuted:', data.isMuted);";
  "                // Use Phaser's global sound manager to mute/unmute all audio";
  "                game.sound.mute = data.isMuted;";
  "                console.log('Farcade SDK: All game audio mute state set to:', data.isMuted);";
  "            });";
  "";
  "            console.log('Farcade SDK: Event handlers registered.');";
  "        }"
  ].

Definition injectFarcadeGameLogic (html : Document) : Console Document :=
  console_log "Injecting Farcade SDK game logic...";;
  let modifiedHtml := html in
  let modifiedHtml :=
    replace showTitleScreenPattern (appending readyHook) modifiedHtml in
  let modifiedHtml :=
    replace gameOverScreenPattern (appending gameOverHook) modifiedHtml in
  modifiedHtml ←
    (if negb (includes gameOverCall modifiedHtml) then
       console_log "Primary gameOver pattern not found, trying alternative pattern...";;
       mret (replace alternativePattern (appending alternativeHook)
               modifiedHtml)
     else mret modifiedHtml);
  modifiedHtml ←
    (if negb (includes gameOverCall modifiedHtml) then
       console_log "Alternative pattern not found, trying end-of-method pattern...";;
       mret (replace endOfMethodPattern (between endOfMethodHook)
               modifiedHtml)
     else mret modifiedHtml);
  let modifiedHtml :=
    replace phaserGameInstancePattern (appending eventHandlersHook)
      modifiedHtml in
  mret modifiedHtml.

Definition integrateFarcade : World -> completion unit * World :=
  integrateFarcade config injectFarcadeSDK injectFarcadeGameLogic.

End RemixIntegration.

(** ** The second script (the earlier version of the integration) *)

Module FarcadeIntegration.
Import RegExp.

Definition config : Config :=
  {| indexTemplate := "index.html"; outputFile := "index.farcade.html" |}.

Definition farcadeScriptTag : Document :=
  lit "    <script src=" ++ [DQUOTE]
  ++ lit "https://cdn.jsdelivr.net/npm/@farcade/game-sdk@latest/dist/index.min.js"
  ++ [DQUOTE] ++ lit "></script>".

(** [/<\/head>/] *)
Definition headPattern : regex := [Plain (Lit (lit "</head>"))].

Definition injectFarcadeSDK (html : Document) : Console Document :=
  console_log "Injecting Farcade SDK script tag...";;
  mret (replace_text headPattern
          (farcadeScriptTag ++ [LF] ++ lit "</head>") html).

(** [/(showTitleScreen\(\) \{[\s\S]*?this\.gameElements\.forEach\(element => element\.setVisible\(false\)\);)/] *)
Definition showTitleScreenPattern : regex :=
  [Capture
     [Lit (lit "showTitleScreen() {");
      StarLazy AnyChar;
      Lit (lit "this.gameElements.forEach(element => element.setVisible(false));")]].

Definition readyHook : Document := template [
  "";
  "";
  "                // Farcade SDK: Signal that the game is fully loaded and ready to play";
  "                if (window.FarcadeSDK) {";
  "                    window.FarcadeSDK.singlePlayer.actions.ready();";
  "                    console.log('Farcade SDK: Game ready signal sent.');";
  "                }"
  ].

(** [/(this\.playButton\.setPosition\(450, 1360\);[\s\S]*?this\.playButton\.setInteractive\(\);)/] *)
Definition gameOverScreenPattern : regex :=
  [Capture
     [Lit (lit "this.playButton.setPosition(450, 1360);");
      StarLazy AnyChar;
      Lit (lit "this.playButton.setInteractive();")]].

Definition gameOverHook : Document := template [
  "";
  "";
  "                // Farcade SDK: Hide our play button and call SDK gameOver after a delay";
  "                if (window.FarcadeSDK) {";
  "                    this.playButton.setVisible(false); // Hide our button since Farcade UI takes over";
  "                    ";
  "                    this.time.delayedCall(1000, () => {";
  "                        window.FarcadeSDK.singlePlayer.actions.gameOver({ score: this.maxHeight });";
  "                        console.log('Farcade SDK: Game over signal sent with score:', this.maxHeight);";
  "                    });";
  "                }"
  ].

(** [/(this\.playButton\.removeAllListeners\(\);[\s\S]*?this\.startGame\(\);[\s\S]*?\}\);)/] *)
Definition fallbackPattern : regex :=
  [Capture
     [Lit (lit "this.playButton.removeAllListeners();");
      StarLazy AnyChar;
      Lit (lit "this.startGame();");
      StarLazy AnyChar;
      Lit (lit "});")]].

Definition fallbackHook : Document := template [
  "";
  "";
  "                // Farcade SDK: Call gameOver after button setup (fallback injection)";
  "                if (window.FarcadeSDK) {";
  "                    this.time.delayedCall(1000, () => {";
  "                        window.FarcadeSDK.singlePlayer.actions.gameOver({ score: this.maxHeight });";
  "                        console.log('Farcade SDK: Game over signal sent with score (fallback):', this.maxHeight);";
  "                    });";
  "                }"
  ].

(** [/(const game = new Phaser\.Game\(config\);)/] *)
Definition phaserGameInstancePattern : regex :=
  [Capture [Lit (lit "const game = new Phaser.Game(config);")]].

Definition eventHandlersHook : Document := template [
  "";
  "";
  "        // Farcade SDK: Register event handlers for 'play_again' and 'toggle_mute'";
  "        if (window.FarcadeSDK) {";
  "            // Handle play again requests from Farcade";
  "            window.FarcadeSDK.on('play_again', () => {";
  "                console.log('Farcade SDK: Play again requested.');";
  "                const activeScene = game.scene.getScene('VerticalLauncher');";
  "                if (activeScene && activeScene.startGame) {";
  "                    // IMPORTANT: Clean up game over elements before restarting";
  "                    if (activeScene.hideGameOverElements) {";
  "                        activeScene.hideGameOverElements();";
  "                        console.log('Farcade SDK: Game over elements cleaned up.');";
  "                    }";
  "                    activeScene.startGame();";
  "                    console.log('Farcade SDK: Game restarted.');";
  "                } else {";
  "                    console.warn('Farcade SDK: Could not find active scene to restart game.');";
  "                }";
  "            });";
  "";
  "            // Handle mute/unmute requests from Farcade";
  "            window.FarcadeSDK.on('toggle_mute', (data) => {";
  "                console.log('Farcade SDK: Mute toggle requested, isMuted:', data.isMuted);";
  "                // Use Phaser's global sound manager to mute/unmute all audio";
  "                game.sound.mute = data.isMuted;";
  "                console.log('Farcade SDK: All game audio mute state set to:', data.isMuted);";
  "            });";
  "";
  "            console.log('Farcade SDK: Event handlers registered.');";
  "        }"
  ].

Definition injectFarcadeGameLogic (html : Document) : Console Document :=
  console_log "Injecting Farcade SDK game logic...";;
  let modifiedHtml := html in
  let modifiedHtml :=
    replace showTitleScreenPattern (appending readyHook) modifiedHtml in
  let modifiedHtml :=
    replace gameOverScreenPattern (appending gameOverHook) modifiedHtml in
  modifiedHtml ←
    (if negb (includes gameOverCall modifiedHtml) then
       console_log "Primary gameOver pattern not found, trying fallback pattern...";;
       mret (replace fallbackPattern (appending fallbackHook) modifiedHtml)
     else mret modifiedHtml);
  let modifiedHtml :=
    replace phaserGameInstancePattern (appending eventHandlersHook)
      modifiedHtml in
  mret modifiedHtml.

Definition integrateFarcade : World -> completion unit * World :=
  integrateFarcade config injectFarcadeSDK injectFarcadeGameLogic.

End FarcadeIntegration.

(** * Specification vocabulary *)

(** [borderless n]: no proper, non-empty suffix of [n] is a prefix of
    [n] (the text does not overlap itself). *)
Definition borderless (n : list N) : bool :=
  forallb (fun k => negb (is_prefix (drop k n) n)) (seq 1 (length n - 1)).

(** ** The language of a pattern

    What a pattern can match, without the order in which the search
    tries the candidates. *)

Module Lang.
Import RegExp.

Definition all_in (k : cls) (u : list N) : Prop :=
  Forall (fun c => cls_test k c = true) u.

Definition in_atom (a : atom) (u : list N) : Prop :=
  match a with
  | Lit p => u = p
  | StarGreedy k | StarLazy k => all_in k u
  | PlusGreedy k => u <> [] /\ all_in k u
  end.

Fixpoint in_atoms (body : list atom) (u : list N) : Prop :=
  match body with
  | [] => u = []
  | a :: body' =>
      exists v r, u = v ++ r /\ in_atom a v /\ in_atoms body' r
  end.

(** [in_regex re u caps]: [re] can match the text [u], its capture
    groups holding [caps]. *)
Fixpoint in_regex (re : regex) (u : list N) (caps : list (list N))
    : Prop :=
  match re with
  | [] => u = [] /\ caps = []
  | Plain a :: re' =>
      exists v r, u = v ++ r /\ in_atom a v /\ in_regex re' r caps
  | Capture body :: re' =>
      exists v r caps',
        u = v ++ r /\ in_atoms body v /\ caps = v :: caps'
        /\ in_regex re' r caps'
  end.

(** [occurs re s]: some part of [s] is matched by [re]. *)
Definition occurs (re : regex) (s : list N) : Prop :=
  exists a u b caps, s = a ++ u ++ b /\ in_regex re u caps.

(** An atom that matches every text. *)
Definition absorbing (a : atom) : bool :=
  match a with
  | StarGreedy AnyChar | StarLazy AnyChar => true
  | _ => false
  end.

Definition starts_absorbing (body : list atom) : bool :=
  match body with
  | a :: _ => absorbing a
  | [] => false
  end.

Definition is_suffix (t l : list N) : bool :=
  is_prefix (rev t) (rev l).

(** [cut_free t c body]: no text matched by [body] can be cut, at a
    place where an insertion would break the match, right after a text
    that ends with [t], whose last character is [c].  Cuts inside or
    next to an absorbing atom are harmless. *)
Fixpoint cut_free (t : list N) (c : N) (body : list atom) : bool :=
  match body with
  | [] => true
  | a :: rest =>
      match a with
      | Lit l =>
          negb (existsb (N.eqb c) (removelast l))
          && match rest with
             | [] => true
             | _ :: _ =>
                 starts_absorbing rest
                 || ((length t <=? length l)%nat && negb (is_suffix t l))
             end
      | StarGreedy k | StarLazy k | PlusGreedy k =>
          absorbing a || negb (cls_test k c)
      end
      && cut_free t c rest
  end.

(** [foreign c body]: only an absorbing atom of [body] can match the
    character [c]. *)
Fixpoint foreign (c : N) (body : list atom) : bool :=
  match body with
  | [] => true
  | a :: rest =>
      (absorbing a
       || match a with
          | Lit l => negb (existsb (N.eqb c) l)
          | StarGreedy k | StarLazy k | PlusGreedy k => negb (cls_test k c)
          end)
      && foreign c rest
  end.

End Lang.

(** ** The two scripts side by side *)

Inductive script := Remix | Farcade.

Definition injectFarcadeSDK_of (sc : script) : list N -> Console (list N) :=
  match sc with
  | Remix => RemixIntegration.injectFarcadeSDK
  | Farcade => FarcadeIntegration.injectFarcadeSDK
  end.

Definition injectFarcadeGameLogic_of (sc : script)
    : list N -> Console (list N) :=
  match sc with
  | Remix => RemixIntegration.injectFarcadeGameLogic
  | Farcade => FarcadeIntegration.injectFarcadeGameLogic
  end.

Definition integrateFarcade_of (sc : script)
    : World -> completion unit * World :=
  match sc with
  | Remix => RemixIntegration.integrateFarcade
  | Farcade => FarcadeIntegration.integrateFarcade
  end.

Definition farcadeScriptTag_of (sc : script) : list N :=
  match sc with
  | Remix => RemixIntegration.farcadeScriptTag
  | Farcade => FarcadeIntegration.farcadeScriptTag
  end.

(** The rule set of a script: the SDK tag rule, then the behaviour
    rules. *)
Definition ruleSet (sc : script) (html : list N) : list N :=
  value (injectFarcadeGameLogic_of sc (value (injectFarcadeSDK_of sc html))).

(** The primary game-over anchor of a script, and its first fallback
    anchor. *)
Definition primaryAnchor (sc : script) : RegExp.regex :=
  match sc with
  | Remix => RemixIntegration.gameOverScreenPattern
  | Farcade => FarcadeIntegration.gameOverScreenPattern
  end.

Definition firstFallbackAnchor (sc : script) : RegExp.regex :=
  match sc with
  | Remix => RemixIntegration.alternativePattern
  | Farcade => FarcadeIntegration.fallbackPattern
  end.

(** ** The rule table

    The rules of a script as data: an anchor pattern, the text to inject,
    where the text goes, and whether the rule stands behind the
    game-over guard.  [ruleSet_table] below shows that running the
    table is what the script does. *)

Inductive place :=
| BeforeMatch      (* the text, then the matched anchor *)
| AfterMatch       (* the matched anchor, then the text *)
| BetweenGroups.   (* between the two capture groups of the anchor *)

Record rule := Rule {
  anchor : RegExp.regex;
  hook : list N;
  where_ : place;
  guarded : bool
}.

Definition replacer (r : rule) : list N -> list (list N) -> list N :=
  match where_ r with
  | BeforeMatch => fun matched _ => hook r ++ matched
  | AfterMatch => appending (hook r)
  | BetweenGroups => between (hook r)
  end.

(** The [replace] call of a rule. *)
Definition apply_rule (r : rule) (d : list N) : list N :=
  RegExp.replace (anchor r) (replacer r) d.

(** A rule in its place in the script: a guarded rule is skipped when
    the document holds the game-over call. *)
Definition step (d : list N) (r : rule) : list N :=
  if guarded r && includes gameOverCall d then d else apply_rule r d.

Definition run_rules (rs : list rule) (d : list N) : list N :=
  foldl step d rs.

Definition rules (sc : script) : list rule :=
  match sc with
  | Remix =>
      [ Rule RemixIntegration.headPattern
          (RemixIntegration.farcadeScriptTag ++ [LF]) BeforeMatch false;
        Rule RemixIntegration.showTitleScreenPattern
          RemixIntegration.readyHook AfterMatch false;
        Rule RemixIntegration.gameOverScreenPattern
          RemixIntegration.gameOverHook AfterMatch false;
        Rule RemixIntegration.alternativePattern
          RemixIntegration.alternativeHook AfterMatch true;
        Rule RemixIntegration.endOfMethodPattern
          RemixIntegration.endOfMethodHook BetweenGroups true;
        Rule RemixIntegration.phaserGameInstancePattern
          RemixIntegration.eventHandlersHook AfterMatch false ]
  | Farcade =>
      [ Rule FarcadeIntegration.headPattern
          (FarcadeIntegration.farcadeScriptTag ++ [LF]) BeforeMatch false;
        Rule FarcadeIntegration.showTitleScreenPattern
          FarcadeIntegration.readyHook AfterMatch false;
        Rule FarcadeIntegration.gameOverScreenPattern
          FarcadeIntegration.gameOverHook AfterMatch false;
        Rule FarcadeIntegration.fallbackPattern
          FarcadeIntegration.fallbackHook AfterMatch true;
        Rule FarcadeIntegration.phaserGameInstancePattern
          FarcadeIntegration.eventHandlersHook AfterMatch false ]
  end.

(** A rule that injects between two groups has an anchor of two
    groups. *)
Definition well_placed (r : rule) : Prop :=
  match where_ r with
  | BetweenGroups =>
      exists b1 b2, anchor r = [RegExp.Capture b1; RegExp.Capture b2]
  | _ => True
  end.

(** [patches r d d']: [d'] is [d], or [d] with the text of [r] inserted
    in or next to a text that the anchor of [r] matches. *)
Inductive patches (r : rule) (d : list N) : list N -> Prop :=
| patches_skip : patches r d d
| patches_insert pre m1 m2 post caps :
    d = pre ++ m1 ++ m2 ++ post ->
    Lang.in_regex (anchor r) (m1 ++ m2) caps ->
    patches r d (pre ++ m1 ++ hook r ++ m2 ++ post).

(** No game-over anchor of either script is found when the game-over
    rules run, that is, after the ready rule. *)
Definition no_game_over_anchor (d : list N) : bool :=
  let d1 := RegExp.replace RemixIntegration.showTitleScreenPattern
              (appending RemixIntegration.readyHook) d in
  negb (RegExp.test RemixIntegration.gameOverScreenPattern d1)
  && negb (RegExp.test RemixIntegration.alternativePattern d1)
  && negb (RegExp.test RemixIntegration.endOfMethodPattern d1)
  && negb (RegExp.test FarcadeIntegration.gameOverScreenPattern d1)
  && negb (RegExp.test FarcadeIntegration.fallbackPattern d1).

(** The source and the destination of the run; both scripts have the
    same [config]. *)
Definition sourcePath : string := indexTemplate RemixIntegration.config.
Definition destPath : string := outputFile RemixIntegration.config.

(** The last literal of a pattern body, when it ends with one. *)
Definition final_literal (body : list RegExp.atom) : option (list N) :=
  match last body with
  | Some (RegExp.Lit l) => Some l
  | _ => None
  end.


(** ** Sample documents and worlds *)

(** The first fallback anchor of both scripts, and no primary anchor. *)
Definition fallback_only_document : list N :=
  lit "showGameOverScreen() { this.playButton.removeAllListeners(); this.playButton.on('pointerdown', () => { this.startGame(); }); }".

(** The same, in a document that already holds the game-over call
    twice. *)
Definition already_patched_document : list N :=
  gameOverCall ++ lit "(); " ++ gameOverCall ++ lit "(); "
  ++ fallback_only_document.

(** The primary anchor of both scripts. *)
Definition primary_document : list N :=
  lit "this.playButton.setPosition(450, 1360); this.playButton.setInteractive();".

(** No head-closing marker, and the engine-construction statement. *)
Definition headless_document : list N :=
  lit "<body><script>const game = new Phaser.Game(config);</script></body>".

(** Two head-closing markers. *)
Definition two_heads_document : list N :=
  lit "<head></head><body></head></body>".

(** One head-closing marker. *)
Definition plain_document : list N :=
  lit "<html><head></head><body></body></html>".

(** One head-closing marker, and the SDK script reference already in
    place. *)
Definition tagged_document : list N :=
  lit "<head>" ++ RemixIntegration.farcadeScriptTag ++ lit "</head>".

(** A world that holds [html] as [index.html], in which reading is never
    denied and writing meets the fault [f]. *)
Definition world_with (html : list N) (f : write_fault) : World :=
  {| files := {[ sourcePath := html ]};
     read_denied := fun _ => false;
     write_faults := fun _ => f;
     console := [] |}.

(** [index.html] is there, and writing the destination fails before the
    file is opened (a read-only directory, say). *)
Definition unwritable_world : World :=
  world_with plain_document FailsUntouched.

(** Two worlds with the same [index.html] and nothing else in common:
    the second has a destination file left by an earlier run and lines
    on its console. *)
Definition fresh_world : World := world_with plain_document NoFault.

Definition used_world : World :=
  {| files := {[ sourcePath := plain_document; destPath := lit "stale" ]};
     read_denied := fun _ => false;
     write_faults := fun _ => NoFault;
     console := [(LOG, "earlier output")] |}.

(** A world without [index.html]. *)
Definition empty_world : World :=
  {| files := ∅;
     read_denied := fun _ => false;
     write_faults := fun _ => NoFault;
     console := [] |}.

(** ** More vocabulary: the texts and rules the further properties name *)

(** The call of the ready hook, the two subscriptions of the
    event-handler hook, and the engine-construction statement. *)
Definition readyCall : list N :=
  lit "window.FarcadeSDK.singlePlayer.actions.ready".
Definition playAgainHandler : list N := lit "window.FarcadeSDK.on('play_again'".
Definition toggleMuteHandler : list N :=
  lit "window.FarcadeSDK.on('toggle_mute'".
Definition engineStatement : list N :=
  lit "const game = new Phaser.Game(config);".

(** The two literals of the title-screen anchor. *)
Definition titleScreenOpening : list N := lit "showTitleScreen() {".
Definition hideElementsStatement : list N :=
  lit "this.gameElements.forEach(element => element.setVisible(false));".

(** The rules of a script by their role: the table is the SDK tag rule,
    the ready rule, the game-over rules and the event-handler rule. *)
Definition readyRule (sc : script) : rule :=
  match sc with
  | Remix => Rule RemixIntegration.showTitleScreenPattern
               RemixIntegration.readyHook AfterMatch false
  | Farcade => Rule FarcadeIntegration.showTitleScreenPattern
                 FarcadeIntegration.readyHook AfterMatch false
  end.

Definition eventHandlersRule (sc : script) : rule :=
  match sc with
  | Remix => Rule RemixIntegration.phaserGameInstancePattern
               RemixIntegration.eventHandlersHook AfterMatch false
  | Farcade => Rule FarcadeIntegration.phaserGameInstancePattern
                 FarcadeIntegration.eventHandlersHook AfterMatch false
  end.

Definition gameOverRules (sc : script) : list rule :=
  drop 2 (take (length (rules sc) - 1) (rules sc)).

(** [first_found chain d]: the first rule of [chain] whose anchor is
    found in [d] is applied to [d]; none is when no anchor is found. *)
Fixpoint first_found (chain : list rule) (d : list N) : list N :=
  match chain with
  | [] => d
  | r :: rest =>
      if RegExp.test (anchor r) d then apply_rule r d
      else first_found rest d
  end.

(** The number of rules at the head of [chain] whose anchor is not
    found in [d]. *)
Fixpoint leading_misses (chain : list rule) (d : list N) : nat :=
  match chain with
  | [] => 0
  | r :: rest =>
      if RegExp.test (anchor r) d then 0 else S (leading_misses rest d)
  end.

(** The lines a script prints before it tries a game-over fallback
    rule, in the order of the fallback rules. *)
Definition fallbackNotices (sc : script) : list string :=
  match sc with
  | Remix =>
      [ "Primary gameOver pattern not found, trying alternative pattern...";
        "Alternative pattern not found, trying end-of-method pattern..." ]
  | Farcade =>
      [ "Primary gameOver pattern not found, trying fallback pattern..." ]
  end.

(** An empty [index.html]. *)
Definition empty_source_world : World :=
  {| files := {[ sourcePath := [] ]};
     read_denied := fun _ => false;
     write_faults := fun _ => NoFault;
     console := [] |}.

(** A title screen routine with two statements that hide the game
    elements, and the engine-construction statement. *)
Definition title_screen_document : list N :=
  lit "showTitleScreen() { a(); this.gameElements.forEach(element => element.setVisible(false)); b(); this.gameElements.forEach(element => element.setVisible(false)); } const game = new Phaser.Game(config);".

(** ** More vocabulary: counting through the rules *)

(** [hook_proof n]: the text [n] cannot be made or broken by an
    injection of the behaviour rules: it is not empty, holds [;] (the
    character every injection follows) at most as its last character,
    and holds neither a line feed nor a closing brace (the characters
    every hook starts and ends with). *)
Definition hook_proof (n : list N) : bool :=
  negb (existsb (N.eqb 59) (removelast n))
  && negb (existsb (N.eqb 10) n)
  && negb (existsb (N.eqb 125) n)
  && negb (length n =? 0)%nat.

(** The last character of the text a rule injects after. *)
Definition cut_char (r : rule) : option N :=
  match where_ r, anchor r with
  | AfterMatch, [RegExp.Capture body]
  | BetweenGroups, [RegExp.Capture body; RegExp.Capture _] =>
      match final_literal body with
      | Some l => last l
      | None => None
      end
  | _, _ => None
  end.

(** [tidy r]: the rule [r] injects after a [;], and its hook starts
    with a line feed and ends with a closing brace. *)
Definition tidy (r : rule) : bool :=
  bool_decide (cut_char r = Some 59)
  && bool_decide (head (hook r) = Some 10)
  && bool_decide (last (hook r) = Some 125)
  && (2 <=? length (hook r))%nat.

(** [fires r d]: the rule [r], in its place in the script, makes its
    injection into [d]. *)
Definition fires (r : rule) (d : list N) : bool :=
  negb (guarded r && includes gameOverCall d) && RegExp.test (anchor r) d.

(** [loud r]: the rule [r] is tidy and adds the game-over call, which
    its hook holds once. *)
Definition loud (r : rule) : Prop :=
  tidy r = true /\ occurrences gameOverCall (hook r) = 1%nat.

(** The set-up of the play button's handler: a text that the
    alternative anchor of remixIntegration.js matches. *)
Definition handlerSetup : list N :=
  lit "this.playButton.removeAllListeners(); this.playButton.on('pointerdown', () => { this.startGame(); });".

(** The game-over call already in place, and the handler set-up
    twice. *)
Definition two_fallbacks_document : list N :=
  (gameOverCall ++ lit "(); ") ++ handlerSetup ++ lit " " ++ handlerSetup.

(** * Properties *)

(** ** Text: prefixes, occurrences, separators *)

Section Text.
Implicit Types (n p s t a b : list N) (c : N).

Lemma is_prefix_spec p s : is_prefix p s = true <-> exists t, s = p ++ t.
Proof.
  revert s. induction p as [|x p IH]; intros s; simpl.
  - split; [intros _; by exists s | done].
  - destruct s as [|y s].
    + split; [done | intros [t Ht]; discriminate Ht].
    + rewrite andb_true_iff, N.eqb_eq, IH. split.
      * intros [-> [t ->]]. by exists t.
      * intros [t Ht]. injection Ht as -> ->. eauto.
Qed.

Lemma is_prefix_app p t : is_prefix p (p ++ t) = true.
Proof. apply is_prefix_spec. by exists t. Qed.

(** A character that is not in [p] stops every attempt to read [p]
    across it. *)
Lemma is_prefix_sep p a c b :
  c ∉ p -> is_prefix p (a ++ c :: b) = is_prefix p a.
Proof.
  revert a. induction p as [|x p IH]; intros a Hc; [done|].
  apply not_elem_of_cons in Hc as [Hx Hp].
  destruct a as [|y a]; simpl.
  - apply andb_false_iff. left. apply N.eqb_neq. congruence.
  - by rewrite IH.
Qed.

Lemma includes_spec n s :
  includes n s = true <-> exists a b, s = a ++ n ++ b.
Proof.
  induction s as [|x s IH]; simpl.
  - rewrite orb_false_r, is_prefix_spec. split.
    + intros [t Ht]. by exists [], t.
    + intros (a & b & Hs). destruct a; [by exists b|discriminate Hs].
  - rewrite orb_true_iff, is_prefix_spec, IH. split.
    + intros [[t Ht] | (a & b & ->)]; [by exists [], t|].
      by exists (x :: a), b.
    + intros (a & b & Hs). destruct a as [|y a]; [left; by exists b|].
      right. injection Hs as -> ->. by exists a, b.
Qed.

Lemma occurrences_zero n s :
  occurrences n s = 0%nat <-> includes n s = false.
Proof.
  induction s as [|x s IH]; simpl.
  - destruct (is_prefix n []); simpl; split; (done || lia).
  - destruct (is_prefix n (x :: s)); simpl; [split; (done || lia)|].
    apply IH.
Qed.

Lemma occurrences_pos n s :
  (0 < occurrences n s)%nat <-> includes n s = true.
Proof.
  rewrite <- not_false_iff_true, <- occurrences_zero. lia.
Qed.

Lemma occurrences_nil n : n <> [] -> occurrences n [] = 0%nat.
Proof. by destruct n. Qed.

Lemma occurrences_sep n a c b :
  c ∉ n ->
  occurrences n (a ++ c :: b)
  = (occurrences n a + occurrences n b)%nat.
Proof.
  intros Hc. induction a as [|x a IH].
  - change ([] ++ c :: b) with (c :: b). cbn [occurrences].
    change (c :: b) with ([] ++ c :: b).
    rewrite is_prefix_sep by done. simpl. lia.
  - change ((x :: a) ++ c :: b) with (x :: (a ++ c :: b)).
    cbn [occurrences]. rewrite IH.
    change (x :: (a ++ c :: b)) with ((x :: a) ++ c :: b).
    rewrite is_prefix_sep by done. lia.
Qed.

Lemma occurrences_app_r n a b :
  (occurrences n b <= occurrences n (a ++ b))%nat.
Proof. induction a as [|x a IH]; simpl; lia. Qed.

Lemma occurrences_app_l n a b :
  (occurrences n a <= occurrences n (a ++ b))%nat.
Proof.
  induction a as [|x a IH].
  - simpl. destruct n; simpl; [destruct b; simpl|]; lia.
  - change ((x :: a) ++ b) with (x :: (a ++ b)). cbn [occurrences].
    destruct (is_prefix n (x :: a)) eqn:E.
    + apply is_prefix_spec in E as [t E].
      assert (is_prefix n (x :: a ++ b) = true) as ->; [|lia].
      apply is_prefix_spec. exists (t ++ b).
      by rewrite app_assoc, <- E.
    + lia.
Qed.

(** Inserting [h ++ [c2]] right after a character [c1], neither
    character occurring in [n], adds the occurrences of the inserted
    text and nothing else. *)
Lemma occurrences_insert n a c1 h c2 b :
  n <> [] -> c1 ∉ n -> c2 ∉ n ->
  occurrences n ((a ++ [c1]) ++ (h ++ [c2]) ++ b)
  = (occurrences n ((a ++ [c1]) ++ b) + occurrences n (h ++ [c2]))%nat.
Proof.
  intros Hn H1 H2.
  rewrite <- !(assoc_L (++) a). simpl.
  rewrite <- (assoc_L (++) h). simpl.
  rewrite !(occurrences_sep n a c1) by done.
  rewrite !(occurrences_sep n h c2) by done.
  rewrite occurrences_nil by done. lia.
Qed.

(** A text that does not overlap itself occurs once more when it is
    appended. *)
Lemma occurrences_app_self n a :
  n <> [] -> borderless n = true ->
  occurrences n (a ++ n) = S (occurrences n a).
Proof.
  intros Hn Hb. induction a as [|x a IH].
  - simpl. destruct n as [|y n]; [done|]. cbn [occurrences].
    assert (is_prefix (y :: n) (y :: n) = true) as ->.
    { apply is_prefix_spec. exists []. by rewrite app_nil_r. }
    assert (occurrences (y :: n) n = 0%nat) as ->.
    { apply occurrences_zero, not_true_is_false.
      intros (a & b & E)%includes_spec.
      apply (f_equal length) in E. rewrite !length_app in E.
      simpl in E. lia. }
    done.
  - change ((x :: a) ++ n) with (x :: (a ++ n)). cbn [occurrences].
    rewrite IH.
    assert (is_prefix n (x :: a ++ n) = is_prefix n (x :: a)) as ->; [|lia].
    destruct (is_prefix n (x :: a)) eqn:E.
    + apply is_prefix_spec in E as [t E]. apply is_prefix_spec.
      exists (t ++ n). change (x :: a ++ n) with ((x :: a) ++ n).
      by rewrite E, <- app_assoc.
    + apply not_true_is_false. intros [t Ht]%is_prefix_spec.
      change (x :: a ++ n) with ((x :: a) ++ n) in Ht.
      apply app_eq_inv in Ht as [(k & Hk & _) | (k & Hk & Hn2)].
      * rewrite Hk, is_prefix_app in E. done.
      * (* [n = (x :: a) ++ k] and [n = k ++ t]: [n] overlaps itself *)
        assert (k <> []) as Hk0.
        { intros ->. rewrite app_nil_r in Hk. rewrite Hk in E.
          apply not_true_iff_false in E. apply E, is_prefix_spec.
          exists []. by rewrite app_nil_r. }
        assert (0 < length (x :: a) < length n)%nat as Hlen.
        { split; [simpl; lia|]. rewrite Hk, length_app.
          destruct k; [done|simpl; lia]. }
        unfold borderless in Hb. rewrite forallb_forall in Hb.
        specialize (Hb (length (x :: a))).
        rewrite negb_true_iff in Hb.
        assert (is_prefix (drop (length (x :: a)) n) n = true) as Hov.
        { rewrite Hk at 1. rewrite drop_app_length.
          apply is_prefix_spec. eauto. }
        rewrite Hb in Hov; [done|]. apply in_seq. lia.
Qed.

End Text.

(** ** The backtracking search finds exactly the language *)

Section Search.
Import RegExp Lang.
Context {R : Type}.
Implicit Types (cont : list N -> option R) (s u v : list N).

Lemma strip_prefix_spec (p s t : list N) :
  strip_prefix p s = Some t <-> s = p ++ t.
Proof.
  revert s. induction p as [|x p IH]; intros s; simpl.
  - split; [by intros [= ->] | by intros ->].
  - destruct s as [|y s]; [split; [done | intros [=]]|].
    destruct (N.eqb_spec x y) as [->|Hne].
    + rewrite IH. split; [by intros -> | by intros [= ->]].
    + split; [done | intros [= E _]; by destruct Hne].
Qed.

Lemma lazy_star_sound k cont s r :
  lazy_star k cont s = Some r ->
  exists u v, s = u ++ v /\ all_in k u /\ cont v = Some r.
Proof.
  induction s as [|c s IH]; simpl.
  - destruct (cont []) eqn:E; [|done]. intros [= ->].
    exists [], []. by repeat split; [constructor|].
  - destruct (cont (c :: s)) eqn:E.
    + intros [= ->]. exists [], (c :: s). by repeat split; [constructor|].
    + destruct (cls_test k c) eqn:Ek; [|done].
      intros (u & v & -> & Hu & Hv)%IH.
      exists (c :: u), v. repeat split; [by constructor | done].
Qed.

Lemma lazy_star_complete k cont s :
  lazy_star k cont s = None ->
  forall u v, s = u ++ v -> all_in k u -> cont v = None.
Proof.
  induction s as [|c s IH]; simpl.
  - destruct (cont []) eqn:E; [done|]. intros _ u v Hs _.
    symmetry in Hs. apply app_eq_nil in Hs as [_ ->]. done.
  - destruct (cont (c :: s)) eqn:E; [done|].
    intros Hl u v Hs Hu. destruct u as [|y u].
    + simpl in Hs. by subst v.
    + injection Hs as <- ->. apply Forall_cons in Hu as [Hy Hu].
      rewrite Hy in Hl. by apply (IH Hl u v).
Qed.

Lemma greedy_star_sound k cont s r :
  greedy_star k cont s = Some r ->
  exists u v, s = u ++ v /\ all_in k u /\ cont v = Some r.
Proof.
  induction s as [|c s IH]; simpl.
  - intros E. exists [], []. by repeat split; [constructor|].
  - destruct (cls_test k c) eqn:Ek.
    + destruct (greedy_star k cont s) eqn:Eg.
      * intros [= ->]. destruct (IH eq_refl) as (u & v & -> & Hu & Hv).
        exists (c :: u), v. repeat split; [by constructor | done].
      * intros E. exists [], (c :: s). by repeat split; [constructor|].
    + intros E. exists [], (c :: s). by repeat split; [constructor|].
Qed.

Lemma greedy_star_complete k cont s :
  greedy_star k cont s = None ->
  forall u v, s = u ++ v -> all_in k u -> cont v = None.
Proof.
  induction s as [|c s IH]; simpl.
  - intros E u v Hs _.
    symmetry in Hs. apply app_eq_nil in Hs as [_ ->]. done.
  - intros Hg u v Hs Hu. destruct u as [|y u].
    + simpl in Hs. subst v.
      destruct (cls_test k c); [|done].
      by destruct (greedy_star k cont s).
    + injection Hs as <- ->. apply Forall_cons in Hu as [Hy Hu].
      rewrite Hy in Hg.
      destruct (greedy_star k cont (u ++ v)) eqn:Eg; [done|].
      by apply (IH eq_refl u v).
Qed.

Lemma m_atom_sound a cont s r :
  m_atom a cont s = Some r ->
  exists u v, s = u ++ v /\ in_atom a u /\ cont v = Some r.
Proof.
  destruct a as [p|k|k|k]; simpl.
  - destruct (strip_prefix p s) as [t|] eqn:E; [|done].
    apply strip_prefix_spec in E as ->. intros Hc. by exists p, t.
  - apply greedy_star_sound.
  - apply lazy_star_sound.
  - destruct s as [|c s]; [done|].
    destruct (cls_test k c) eqn:Ek; [|done].
    intros (u & v & -> & Hu & Hv)%greedy_star_sound.
    exists (c :: u), v. repeat split; [done | by constructor | done].
Qed.

Lemma m_atom_complete a cont s :
  m_atom a cont s = None ->
  forall u v, s = u ++ v -> in_atom a u -> cont v = None.
Proof.
  destruct a as [p|k|k|k]; simpl.
  - intros Hm u v -> ->.
    destruct (strip_prefix p (p ++ v)) as [t|] eqn:E.
    + apply strip_prefix_spec, app_inv_head in E. by subst t.
    + assert (strip_prefix p (p ++ v) = Some v) as E'
        by by apply strip_prefix_spec.
      congruence.
  - apply greedy_star_complete.
  - apply lazy_star_complete.
  - intros Hm u v -> [Hne Hu]. destruct u as [|y u]; [done|].
    apply Forall_cons in Hu as [Hy Hu].
    simpl in Hm. rewrite Hy in Hm.
    by apply (greedy_star_complete _ _ _ Hm u v).
Qed.

Lemma m_atoms_sound body cont s r :
  m_atoms body cont s = Some r ->
  exists u v, s = u ++ v /\ in_atoms body u /\ cont v = Some r.
Proof.
  revert cont s. induction body as [|a body IH]; intros cont s; simpl.
  - intros Hc. by exists [], s.
  - intros (u1 & v1 & -> & Hu1 & Hc)%m_atom_sound.
    apply IH in Hc as (u2 & v & -> & Hu2 & Hc).
    exists (u1 ++ u2), v. rewrite <- app_assoc. repeat split; [|done].
    by exists u1, u2.
Qed.

Lemma m_atoms_complete body cont s :
  m_atoms body cont s = None ->
  forall u v, s = u ++ v -> in_atoms body u -> cont v = None.
Proof.
  revert cont s. induction body as [|a body IH]; intros cont s; simpl.
  - by intros Hc u v -> ->.
  - intros Hm u v -> (u1 & u2 & -> & Hu1 & Hu2).
    rewrite <- app_assoc in Hm.
    eapply IH; [|done|done].
    by eapply m_atom_complete.
Qed.

End Search.

Section Exec.
Import RegExp Lang.
Implicit Types (re : regex) (s u v : list N).

Lemma consumed_app u v : consumed (u ++ v) v = u.
Proof.
  unfold consumed. rewrite length_app.
  replace (length u + length v - length v)%nat with (length u) by lia.
  apply take_app_length.
Qed.

Lemma m_nodes_sound re s caps fin :
  m_nodes re s = Some (caps, fin) ->
  exists u, s = u ++ fin /\ in_regex re u caps.
Proof.
  revert s caps. induction re as [|[a|body] re IH]; intros s caps; simpl.
  - intros [= <- <-]. by exists [].
  - intros (u & v & -> & Hu & Hm)%m_atom_sound.
    apply IH in Hm as (r & -> & Hr).
    exists (u ++ r). rewrite <- app_assoc. split; [done|]. by exists u, r.
  - intros (u & v & -> & Hu & Hm)%m_atoms_sound.
    destruct (m_nodes re v) as [[caps' fin']|] eqn:E; [|done].
    injection Hm as <- <-.
    apply IH in E as (r & -> & Hr).
    exists (u ++ r). rewrite <- app_assoc. split; [done|].
    exists u, r, caps'. by rewrite consumed_app.
Qed.

Lemma m_nodes_complete re s :
  m_nodes re s = None ->
  forall u v caps, s = u ++ v -> ~ in_regex re u caps.
Proof.
  revert s. induction re as [|[a|body] re IH]; intros s; simpl; [done| |].
  - intros Hm u v caps -> (u1 & r & -> & Hu1 & Hr).
    rewrite <- app_assoc in Hm.
    pose proof (m_atom_complete _ _ _ Hm u1 (r ++ v) eq_refl Hu1) as Hn.
    by apply (IH _ Hn r v caps).
  - intros Hm u v caps -> (u1 & r & caps' & -> & Hu1 & -> & Hr).
    rewrite <- app_assoc in Hm.
    pose proof (m_atoms_complete _ _ _ Hm u1 (r ++ v) eq_refl Hu1) as Hn.
    simpl in Hn. destruct (m_nodes re (r ++ v)) as [[??]|] eqn:E; [done|].
    by apply (IH _ E r v caps').
Qed.

Lemma m_nodes_consumed re s caps rest :
  m_nodes re s = Some (caps, rest) ->
  s = consumed s rest ++ rest /\ in_regex re (consumed s rest) caps.
Proof.
  intros (u & -> & Hin)%m_nodes_sound. by rewrite consumed_app.
Qed.

Lemma exec_sound re s r :
  exec re s = Some r ->
  s = before r ++ matched r ++ after r
  /\ in_regex re (matched r) (captures r)
  /\ forall a b, before r = a ++ b -> b <> [] ->
       m_nodes re (b ++ matched r ++ after r) = None.
Proof.
  revert r. induction s as [|c s IH]; intros r; simpl.
  - destruct (m_nodes re []) as [[caps rest]|] eqn:E; [|done].
    intros [= <-]. simpl.
    apply m_nodes_consumed in E as [Hs Hin].
    repeat split; [done|done|]. intros a b Hab Hb.
    symmetry in Hab. apply app_eq_nil in Hab as [_ ->]. done.
  - destruct (m_nodes re (c :: s)) as [[caps rest]|] eqn:E.
    + intros [= <-]. simpl.
      apply m_nodes_consumed in E as [Hs Hin].
      repeat split; [done|done|]. intros a b Hab Hb.
      symmetry in Hab. apply app_eq_nil in Hab as [_ ->]. done.
    + destruct (exec re s) as [r'|] eqn:Ex; [|done].
      intros [= <-]. simpl.
      destruct (IH r' eq_refl) as (Hs & Hin & Hleft).
      repeat split; [by rewrite Hs at 1 | done |].
      intros a b Hab Hb. destruct a as [|x a].
      * simpl in Hab. subst b. simpl. by rewrite <- Hs.
      * injection Hab as -> Hab. by apply (Hleft a b).
Qed.

Lemma exec_complete re s : exec re s = None -> ~ occurs re s.
Proof.
  induction s as [|c s IH]; simpl.
  - destruct (m_nodes re []) as [[caps rest]|] eqn:E; [done|].
    intros _ (a & u & b & caps & Hs & Hin).
    symmetry in Hs. apply app_eq_nil in Hs as [-> Hs].
    by apply (m_nodes_complete _ _ E u b caps).
  - destruct (m_nodes re (c :: s)) as [[caps rest]|] eqn:E; [done|].
    destruct (exec re s) as [r'|] eqn:Ex; [done|].
    intros _ (a & u & b & caps & Hs & Hin). destruct a as [|x a].
    + by apply (m_nodes_complete _ _ E u b caps).
    + injection Hs as -> ->. apply IH; [done|]. by exists a, u, b, caps.
Qed.

Lemma test_spec re s : test re s = true <-> occurs re s.
Proof.
  unfold test. destruct (exec re s) as [r|] eqn:E.
  - split; [intros _|done].
    apply exec_sound in E as (Hs & Hin & _).
    by exists (before r), (matched r), (after r), (captures r).
  - split; [done|]. intros Ho. by apply exec_complete in E.
Qed.

(** No match starts left of the one [exec] returns. *)
Lemma exec_leftmost re s r :
  exec re s = Some r ->
  forall a u b caps,
    s = a ++ u ++ b -> in_regex re u caps ->
    (length (before r) <= length a)%nat.
Proof.
  intros (Hs & _ & Hleft)%exec_sound a u b caps Hs' Hin.
  destruct (decide (length (before r) <= length a)%nat) as [|Hlt]; [done|].
  exfalso. rewrite Hs in Hs'.
  apply app_eq_inv in Hs' as [(k & Hk & Hub) | (k & Hk & Hub)].
  - destruct (decide (k = [])) as [->|Hne].
    + rewrite app_nil_r in Hk. rewrite Hk in Hlt. lia.
    + specialize (Hleft a k Hk Hne). rewrite <- Hub in Hleft.
      by apply (m_nodes_complete _ _ Hleft u b caps).
  - rewrite Hk, length_app in Hlt. lia.
Qed.

Lemma replace_absent re f s : test re s = false -> replace re f s = s.
Proof. unfold test, replace. by destruct (exec re s). Qed.

Lemma replace_present re f s :
  test re s = true ->
  exists r, exec re s = Some r
    /\ replace re f s = before r ++ f (matched r) (captures r) ++ after r.
Proof.
  unfold test, replace. destruct (exec re s) as [r|]; [|done].
  intros _. by exists r.
Qed.

End Exec.

(** ** Where a match survives an insertion *)

Section Insertion.
Import RegExp Lang.
Implicit Types (body : list atom) (s t u v h : list N) (c : N).

Lemma is_suffix_spec t l : is_suffix t l = true <-> t `suffix_of` l.
Proof.
  unfold is_suffix. rewrite is_prefix_spec. split.
  - intros [x Hx]. exists (rev x).
    apply (f_equal (@rev N)) in Hx.
    by rewrite rev_involutive, rev_app_distr, rev_involutive in Hx.
  - intros [k ->]. exists (rev k). by rewrite rev_app_distr.
Qed.

Lemma app_eq_cases (u1 u2 v r : list N) :
  u1 ++ u2 = v ++ r ->
  (u1 = v /\ u2 = r)
  \/ (exists k, k <> [] /\ u1 = v ++ k /\ r = k ++ u2)
  \/ (exists k, k <> [] /\ v = u1 ++ k /\ u2 = k ++ r).
Proof.
  intros [(k & -> & ->) | (k & -> & ->)]%app_eq_inv;
    (destruct (decide (k = [])) as [->|Hk];
     [left; by rewrite app_nil_r | right]).
  - left. by exists k.
  - right. by exists k.
Qed.

Lemma last_of_suffix t c a u :
  last t = Some c -> u <> [] -> t `suffix_of` (a ++ u) -> last u = Some c.
Proof.
  intros [t' ->]%last_Some Hu [k Hk].
  destruct (last u) as [x|] eqn:E.
  - apply last_Some in E as [u' ->].
    rewrite !app_assoc in Hk. by apply app_inj_tail in Hk as [_ ->].
  - by apply last_None in E.
Qed.

Lemma all_in_last k u c : all_in k u -> last u = Some c -> cls_test k c = true.
Proof.
  intros Hall Hc%last_Some_elem_of.
  unfold all_in in Hall. rewrite Forall_forall in Hall. by apply Hall.
Qed.

Lemma absorbing_any a u : absorbing a = true -> in_atom a u.
Proof.
  destruct a as [p|[]|[]|k]; try done; intros _; simpl;
    by apply Forall_forall.
Qed.

Lemma cut_inside_literal c (u k : list N) :
  last u = Some c -> k <> [] ->
  existsb (N.eqb c) (removelast (u ++ k)) = true.
Proof.
  intros [u' ->]%last_Some Hk. rewrite removelast_app by done.
  rewrite !existsb_app. simpl. by rewrite N.eqb_refl, orb_true_r.
Qed.

(** The insertion lemma: a text matched by [body] stays matched when
    [h] is inserted at a cut of it, if the text left of the cut ends
    with [t] and [body] is [cut_free] for [t]. *)
Lemma insert_safe t c body :
  last t = Some c -> cut_free t c body = true ->
  forall a u1 u2 h,
    in_atoms body (u1 ++ u2) -> u1 <> [] -> u2 <> [] ->
    t `suffix_of` (a ++ u1) ->
    in_atoms body (u1 ++ h ++ u2).
Proof.
  intros Ht. induction body as [|x rest IH]; intros Hfree a u1 u2 h.
  - simpl. intros [-> _]%app_eq_nil. done.
  - cbn [cut_free] in Hfree. apply andb_true_iff in Hfree as [Hx Hrest].
    intros (v & r & Huv & Hv & Hr) Hu1 Hu2 Hsuf.
    pose proof (last_of_suffix _ _ _ _ Ht Hu1 Hsuf) as Hlast.
    apply app_eq_cases in Huv
      as [[-> ->] | [(k & Hk & -> & ->) | (k & Hk & -> & ->)]].
    + (* the cut is at the end of the first atom *)
      destruct (absorbing x) eqn:Ea.
      { exists (v ++ h), r. split; [by rewrite <- !app_assoc|].
        split; [by apply absorbing_any|done]. }
      destruct x as [l|k|k|k]; simpl in Hv.
      * subst v. apply andb_true_iff in Hx as [_ Hx].
        destruct rest as [|y rest']; [by simpl in Hr|].
        apply orb_true_iff in Hx as [Hy | Hx].
        -- destruct Hr as (v2 & r2 & -> & Hv2 & Hr2).
           exists l, ((h ++ v2) ++ r2).
           split; [by rewrite <- !app_assoc|]. split; [done|].
           exists (h ++ v2), r2.
           split; [done|]. split; [by apply absorbing_any|done].
        -- apply andb_true_iff in Hx as [Hlen Hns].
           apply Nat.leb_le in Hlen. apply negb_true_iff in Hns.
           apply not_true_iff_false in Hns. destruct Hns.
           apply is_suffix_spec.
           destruct Hsuf as [k Hk]. 
           apply app_eq_inv in Hk as [(j & _ & Hl) | (j & _ & Hl)].
           ++ pose proof (f_equal length Hl) as Hl'.
              rewrite length_app in Hl'.
              destruct j; [|simpl in Hl'; lia]. simpl in Hl.
              rewrite Hl. by exists [].
           ++ by exists j.
      * simpl in Hx.
        by rewrite (all_in_last _ _ _ Hv Hlast) in Hx.
      * simpl in Hx.
        by rewrite (all_in_last _ _ _ Hv Hlast) in Hx.
      * simpl in Hx. destruct Hv as [_ Hv].
        by rewrite (all_in_last _ _ _ Hv Hlast) in Hx.
    + (* the cut is in the rest of the pattern *)
      exists v, (k ++ h ++ u2). split; [by rewrite <- !app_assoc|].
      split; [done|].
      apply (IH Hrest (a ++ v)); [done|done|done|].
      by rewrite <- app_assoc.
    + (* the cut is inside the text of the first atom *)
      destruct (absorbing x) eqn:Ea.
      { exists (u1 ++ h ++ k), r. split; [by rewrite <- !app_assoc|].
        split; [by apply absorbing_any|done]. }
      assert (all_in_cut : forall k0, all_in k0 (u1 ++ k) ->
                cls_test k0 c = true).
      { intros k0 Hall. apply Forall_app in Hall as [Hall _].
        by apply (all_in_last _ _ _ Hall Hlast). }
      destruct x as [l|k0|k0|k0]; simpl in Hv.
      * subst l. apply andb_true_iff in Hx as [Hx _].
        by rewrite (cut_inside_literal _ _ _ Hlast Hk) in Hx.
      * simpl in Hx.
        by rewrite (all_in_cut _ Hv) in Hx.
      * simpl in Hx.
        by rewrite (all_in_cut _ Hv) in Hx.
      * simpl in Hx. destruct Hv as [_ Hv].
        by rewrite (all_in_cut _ Hv) in Hx.
Qed.

(** The insertion lemma, seen from the right: a text matched by [body]
    stays matched when [h] is inserted right before a character that only
    absorbing atoms can match. *)
Lemma insert_before c body :
  foreign c body = true ->
  forall u1 u2 h,
    in_atoms body (u1 ++ c :: u2) -> in_atoms body (u1 ++ h ++ c :: u2).
Proof.
  induction body as [|x rest IH]; intros Hf u1 u2 h.
  - simpl. by intros [_ ?]%app_eq_nil.
  - cbn [foreign] in Hf. apply andb_true_iff in Hf as [Hx Hrest].
    intros (v & r & Huv & Hv & Hr).
    apply app_eq_cases in Huv
      as [[Hu1 Hr'] | [(k & Hk & Hu1 & Hr') | (k & Hk & Hv' & Hu2)]].
    + subst u1 r. exists v, (h ++ c :: u2). split; [done|]. split; [done|].
      by apply (IH Hrest []).
    + subst u1 r. exists v, (k ++ h ++ c :: u2).
      split; [by rewrite <- !app_assoc|]. split; [done|]. by apply IH.
    + subst v. destruct k as [|c' k]; [done|]. injection Hu2 as <- ->.
      destruct (absorbing x) eqn:Ea.
      { exists (u1 ++ h ++ c :: k), r. split; [by rewrite <- !app_assoc|].
        split; [by apply absorbing_any|done]. }
      simpl in Hx.
      assert (forall k0, all_in k0 (u1 ++ c :: k) -> cls_test k0 c = true)
        as Hall.
      { intros k0 [_ [Hc _]%Forall_cons]%Forall_app. done. }
      destruct x as [l|k0|k0|k0]; simpl in Hv.
      * subst l. rewrite existsb_app in Hx. simpl in Hx.
        by rewrite N.eqb_refl, orb_true_r in Hx.
      * by rewrite (Hall _ Hv) in Hx.
      * by rewrite (Hall _ Hv) in Hx.
      * destruct Hv as [_ Hv]. by rewrite (Hall _ Hv) in Hx.
Qed.

End Insertion.

(** ** One rule: [s.replace (re, (match) => `${match}<hook>`)] *)

Section Rule.
Import RegExp Lang.
Implicit Types (body : list atom) (re : regex) (s t u v h n : list N).

Lemma not_elem_of_existsb (c : N) n :
  existsb (N.eqb c) n = false -> c ∉ n.
Proof.
  intros Hex Hin. apply not_true_iff_false in Hex. apply Hex.
  apply existsb_exists. exists c. split; [by apply list_elem_of_In|].
  apply N.eqb_refl.
Qed.

Lemma in_atoms_final body l u :
  final_literal body = Some l -> in_atoms body u -> l `suffix_of` u.
Proof.
  unfold final_literal. revert u.
  induction body as [|a body IH]; intros u; [done|].
  intros Hl (v & r & -> & Hv & Hr).
  destruct body as [|b body].
  - simpl in Hl, Hr. subst r. destruct a; try done.
    injection Hl as ->. simpl in Hv. subst v. rewrite app_nil_r.
    by exists [].
  - apply suffix_app_r. apply IH; [|done]. exact Hl.
Qed.

Lemma in_regex_capture body u caps :
  in_regex [Capture body] u caps <-> in_atoms body u /\ caps = [u].
Proof.
  simpl. split.
  - intros (v & r & caps' & -> & Hv & -> & -> & ->).
    by rewrite app_nil_r.
  - intros [Hu ->]. exists u, [], []. by rewrite app_nil_r.
Qed.

(** The shape of a replacement at the first match. *)
Lemma replace_appending re hook s :
  test re s = true ->
  exists pre m post caps,
    s = pre ++ m ++ post
    /\ in_regex re m caps
    /\ (forall a u b caps', s = a ++ u ++ b -> in_regex re u caps' ->
          (length pre <= length a)%nat)
    /\ replace re (appending hook) s = pre ++ m ++ hook ++ post.
Proof.
  intros (r & Hex & Hrep)%(replace_present re (appending hook)).
  pose proof (exec_leftmost _ _ _ Hex) as Hleft.
  apply exec_sound in Hex as (Hs & Hin & _).
  exists (before r), (matched r), (after r), (captures r).
  repeat split; [done|done|done|].
  rewrite Hrep. unfold appending. by rewrite <- app_assoc.
Qed.

(** The occurrences of [n] after a rule whose anchor ends with a
    character foreign to [n], and whose hook ends with another. *)
Lemma occurrences_replace n body l c1 hook c2 s :
  n <> [] -> c1 ∉ n -> c2 ∉ n ->
  final_literal body = Some l -> last l = Some c1 ->
  last hook = Some c2 ->
  occurrences n (replace [Capture body] (appending hook) s)
  = (occurrences n s
     + if test [Capture body] s then occurrences n hook else 0)%nat.
Proof.
  intros Hn H1 H2 Hl Hc1 Hc2.
  destruct (test [Capture body] s) eqn:Et.
  - apply (replace_appending _ hook) in Et
      as (pre & m & post & caps & -> & Hin & _ & ->).
    apply in_regex_capture in Hin as [Hin _].
    pose proof (in_atoms_final _ _ _ Hl Hin) as [m' ->].
    apply last_Some in Hc1 as [l' ->]. apply last_Some in Hc2 as [h' ->].
    pose proof (occurrences_insert n (pre ++ m' ++ l') c1 h' c2 post
                  Hn H1 H2) as E.
    rewrite <- !app_assoc in E. rewrite <- !app_assoc. exact E.
  - rewrite replace_absent by done. lia.
Qed.

(** An occurrence of a pattern survives an insertion made right after
    a text that ends with [t], when the pattern is [cut_free] for
    [t]. *)
Lemma occurs_insert t c body p q h :
  last t = Some c -> cut_free t c body = true ->
  t `suffix_of` p ->
  occurs [Capture body] (p ++ q) ->
  occurs [Capture body] (p ++ h ++ q).
Proof.
  intros Ht Hfree Hsuf (a & u & b & caps & Hs & Hin).
  apply in_regex_capture in Hin as [Hin ->].
  assert (found : forall a' u' b', p ++ h ++ q = a' ++ u' ++ b' ->
            in_atoms body u' -> occurs [Capture body] (p ++ h ++ q)).
  { intros a' u' b' E Hu'. exists a', u', b', [u'].
    split; [done|]. by apply in_regex_capture. }
  apply app_eq_cases in Hs
    as [[Hp Hq] | [(k & Hk & Hp & Hub) | (k & Hk & Ha & Hq)]].
  - subst p q.
    apply (found (a ++ h) u b); [by rewrite <- !app_assoc|done].
  - subst p. apply app_eq_cases in Hub
      as [[Hu Hb] | [(j & Hj & Hu & Hq) | (j & Hj & Hk' & Hb)]].
    + subst u b.
      apply (found a k (h ++ q)); [by rewrite <- !app_assoc|done].
    + subst u q.
      apply (found a (k ++ h ++ j) b); [by rewrite <- !app_assoc|].
      by apply (insert_safe t c body Ht Hfree a).
    + subst k b.
      apply (found a u (j ++ h ++ q)); [by rewrite <- !app_assoc|done].
  - subst a q.
    apply (found (p ++ h ++ k) u b); [by rewrite <- !app_assoc|done].
Qed.

(** The same, for the rule that makes the insertion. *)
Lemma test_survives_rule t c body ibody il hook s :
  last t = Some c -> cut_free t c body = true ->
  final_literal ibody = Some il -> t `suffix_of` il ->
  test [Capture body] s = true ->
  test [Capture body] (replace [Capture ibody] (appending hook) s) = true.
Proof.
  intros Ht Hfree Hil Hsuf Hs.
  destruct (test [Capture ibody] s) eqn:Et.
  - apply (replace_appending _ hook) in Et
      as (pre & m & post & caps & -> & Hin & _ & ->).
    apply in_regex_capture in Hin as [Hin _].
    apply test_spec.
    replace (pre ++ m ++ hook ++ post) with ((pre ++ m) ++ hook ++ post)
      by by rewrite <- app_assoc.
    apply (occurs_insert t c); [done|done| |].
    + apply suffix_app_r. etrans; [exact Hsuf|].
      by apply (in_atoms_final ibody).
    + rewrite <- app_assoc. by apply test_spec.
  - by rewrite replace_absent.
Qed.

Lemma occurs_insert_before c body p q h :
  foreign c body = true ->
  occurs [Capture body] (p ++ c :: q) ->
  occurs [Capture body] (p ++ h ++ c :: q).
Proof.
  intros Hf (a & u & b & caps & Hs & Hin).
  apply in_regex_capture in Hin as [Hin ->].
  assert (found : forall a' u' b', p ++ h ++ c :: q = a' ++ u' ++ b' ->
            in_atoms body u' -> occurs [Capture body] (p ++ h ++ c :: q)).
  { intros a' u' b' E Hu'. exists a', u', b', [u'].
    split; [done|]. by apply in_regex_capture. }
  apply app_eq_cases in Hs
    as [[Hp Hq] | [(k & Hk & Hp & Hub) | (k & Hk & Ha & Hq)]].
  - subst p. apply (found (a ++ h) u b); [|done].
    by rewrite Hq, <- !app_assoc.
  - subst p. apply app_eq_cases in Hub
      as [[Hu Hb] | [(j & Hj & Hu & Hq) | (j & Hj & Hk' & Hb)]].
    + subst u b.
      apply (found a k (h ++ c :: q)); [by rewrite <- !app_assoc|done].
    + subst u. destruct j as [|c' j]; [done|]. injection Hq as <- ->.
      apply (found a (k ++ h ++ c :: j) b); [by rewrite <- !app_assoc|].
      by apply insert_before.
    + subst k b.
      apply (found a u (j ++ h ++ c :: q)); [by rewrite <- !app_assoc|done].
  - subst a. apply (found (p ++ h ++ k) u b); [|done].
    by rewrite Hq, <- !app_assoc.
Qed.

End Rule.

(** ** The behaviour rules as a composition of replacements *)

Section GameLogic.
Import RegExp Lang.

Lemma remix_game_logic_value html :
  value (RemixIntegration.injectFarcadeGameLogic html)
  = let d1 := replace RemixIntegration.showTitleScreenPattern
                (appending RemixIntegration.readyHook) html in
    let d2 := replace RemixIntegration.gameOverScreenPattern
                (appending RemixIntegration.gameOverHook) d1 in
    let d3 := if includes gameOverCall d2 then d2
              else replace RemixIntegration.alternativePattern
                     (appending RemixIntegration.alternativeHook) d2 in
    let d4 := if includes gameOverCall d3 then d3
              else replace RemixIntegration.endOfMethodPattern
                     (between RemixIntegration.endOfMethodHook) d3 in
    replace RemixIntegration.phaserGameInstancePattern
      (appending RemixIntegration.eventHandlersHook) d4.
Proof.
  unfold RemixIntegration.injectFarcadeGameLogic.
  cbv [mbind mret Console_bind Console_ret console_log].
  cbv zeta.
  destruct (includes gameOverCall
              (replace RemixIntegration.gameOverScreenPattern _ _)) eqn:E1;
    cbn [negb value transcript].
  - rewrite E1. reflexivity.
  - destruct (includes gameOverCall
                (replace RemixIntegration.alternativePattern _ _));
      reflexivity.
Qed.

Lemma farcade_game_logic_value html :
  value (FarcadeIntegration.injectFarcadeGameLogic html)
  = let d1 := replace FarcadeIntegration.showTitleScreenPattern
                (appending FarcadeIntegration.readyHook) html in
    let d2 := replace FarcadeIntegration.gameOverScreenPattern
                (appending FarcadeIntegration.gameOverHook) d1 in
    let d3 := if includes gameOverCall d2 then d2
              else replace FarcadeIntegration.fallbackPattern
                     (appending FarcadeIntegration.fallbackHook) d2 in
    replace FarcadeIntegration.phaserGameInstancePattern
      (appending FarcadeIntegration.eventHandlersHook) d3.
Proof.
  unfold FarcadeIntegration.injectFarcadeGameLogic.
  cbv [mbind mret Console_bind Console_ret console_log].
  cbv zeta.
  destruct (includes gameOverCall
              (replace FarcadeIntegration.gameOverScreenPattern _ _));
    reflexivity.
Qed.

End GameLogic.

(** ** Counting the game-over call *)

Section GameOverCall.
Import RegExp Lang.

(** Side conditions that are closed computations. *)
Ltac closed_fact :=
  lazymatch goal with
  | |- _ ∉ _ => apply not_elem_of_existsb; vm_compute; reflexivity
  | |- _ `suffix_of` _ => apply is_suffix_spec; vm_compute; reflexivity
  | |- _ <> [] => discriminate
  | |- _ => vm_compute; reflexivity
  end.

(** Every anchor of the scripts ends with [;] and every hook with a
    closing brace; the call has neither character. *)
Lemma call_count_rule body l hook s :
  final_literal body = Some l -> last l = Some 59 ->
  last hook = Some 125 ->
  occurrences gameOverCall (replace [Capture body] (appending hook) s)
  = (occurrences gameOverCall s
     + if test [Capture body] s then occurrences gameOverCall hook
       else 0)%nat.
Proof.
  intros Hl Hc Hh.
  apply (occurrences_replace gameOverCall body l 59 hook 125);
    first [done | closed_fact].
Qed.

Lemma call_kept_by_rule body l hook s :
  final_literal body = Some l -> last l = Some 59 ->
  last hook = Some 125 ->
  includes gameOverCall s = true ->
  includes gameOverCall (replace [Capture body] (appending hook) s)
  = true.
Proof.
  intros Hl Hc Hh Hs. apply occurrences_pos.
  rewrite (call_count_rule body l) by done.
  apply occurrences_pos in Hs. lia.
Qed.

Lemma call_count_silent body l hook s :
  final_literal body = Some l -> last l = Some 59 ->
  last hook = Some 125 -> occurrences gameOverCall hook = 0%nat ->
  occurrences gameOverCall (replace [Capture body] (appending hook) s)
  = occurrences gameOverCall s.
Proof.
  intros Hl Hc Hh H0. rewrite (call_count_rule body l) by done.
  rewrite H0. destruct (test [Capture body] s); lia.
Qed.

Lemma call_count_loud body l hook s :
  final_literal body = Some l -> last l = Some 59 ->
  last hook = Some 125 -> occurrences gameOverCall hook = 1%nat ->
  occurrences gameOverCall (replace [Capture body] (appending hook) s)
  = (occurrences gameOverCall s
     + if test [Capture body] s then 1 else 0)%nat.
Proof.
  intros Hl Hc Hh H1. rewrite (call_count_rule body l) by done.
  by rewrite H1.
Qed.

Lemma remix_exactly_one html :
  test RemixIntegration.alternativePattern html = true ->
  includes gameOverCall html = false ->
  occurrences gameOverCall
    (value (RemixIntegration.injectFarcadeGameLogic html)) = 1%nat.
Proof.
  intros Halt Hnone%occurrences_zero.
  rewrite remix_game_logic_value. cbv zeta.
  set (d1 := replace RemixIntegration.showTitleScreenPattern _ html).
  set (d2 := replace RemixIntegration.gameOverScreenPattern _ d1).
  assert (occurrences gameOverCall d1 = 0%nat) as Hd1.
  { unfold d1, RemixIntegration.showTitleScreenPattern.
    erewrite call_count_silent; [done|closed_fact..]. }
  assert (test RemixIntegration.alternativePattern d1 = true) as Halt1.
  { unfold d1, RemixIntegration.showTitleScreenPattern,
      RemixIntegration.alternativePattern.
    eapply (test_survives_rule (lit "));") 59); [closed_fact..|exact Halt]. }
  assert (occurrences gameOverCall d2
          = if test RemixIntegration.gameOverScreenPattern d1
            then 1%nat else 0%nat) as Hd2.
  { unfold d2, RemixIntegration.gameOverScreenPattern.
    erewrite call_count_loud; [|closed_fact..]. by rewrite Hd1. }
  assert (forall d, occurrences gameOverCall d = 1%nat ->
            occurrences gameOverCall
              (replace RemixIntegration.phaserGameInstancePattern
                 (appending RemixIntegration.eventHandlersHook) d)
            = 1%nat) as Hlast.
  { intros d Hd. unfold RemixIntegration.phaserGameInstancePattern.
    erewrite call_count_silent; [done|closed_fact..]. }
  destruct (test RemixIntegration.gameOverScreenPattern d1) eqn:Ep.
  - assert (includes gameOverCall d2 = true) as Hi
      by (apply occurrences_pos; lia).
    rewrite !Hi. by apply Hlast.
  - assert (includes gameOverCall d2 = false) as ->
      by by apply occurrences_zero.
    assert (d2 = d1) as -> by by apply replace_absent.
    set (d3 := replace RemixIntegration.alternativePattern _ d1).
    assert (occurrences gameOverCall d3 = 1%nat) as Hd3.
    { unfold d3, RemixIntegration.alternativePattern.
      erewrite call_count_loud; [|closed_fact..]. rewrite Hd1.
      unfold RemixIntegration.alternativePattern in Halt1.
      by rewrite Halt1. }
    assert (includes gameOverCall d3 = true) as ->
      by (apply occurrences_pos; lia).
    by apply Hlast.
Qed.

Lemma farcade_exactly_one html :
  test FarcadeIntegration.fallbackPattern html = true ->
  includes gameOverCall html = false ->
  occurrences gameOverCall
    (value (FarcadeIntegration.injectFarcadeGameLogic html)) = 1%nat.
Proof.
  intros Halt Hnone%occurrences_zero.
  rewrite farcade_game_logic_value. cbv zeta.
  set (d1 := replace FarcadeIntegration.showTitleScreenPattern _ html).
  set (d2 := replace FarcadeIntegration.gameOverScreenPattern _ d1).
  assert (occurrences gameOverCall d1 = 0%nat) as Hd1.
  { unfold d1, FarcadeIntegration.showTitleScreenPattern.
    erewrite call_count_silent; [done|closed_fact..]. }
  assert (test FarcadeIntegration.fallbackPattern d1 = true) as Halt1.
  { unfold d1, FarcadeIntegration.showTitleScreenPattern,
      FarcadeIntegration.fallbackPattern.
    eapply (test_survives_rule (lit "));") 59); [closed_fact..|exact Halt]. }
  assert (occurrences gameOverCall d2
          = if test FarcadeIntegration.gameOverScreenPattern d1
            then 1%nat else 0%nat) as Hd2.
  { unfold d2, FarcadeIntegration.gameOverScreenPattern.
    erewrite call_count_loud; [|closed_fact..]. by rewrite Hd1. }
  assert (forall d, occurrences gameOverCall d = 1%nat ->
            occurrences gameOverCall
              (replace FarcadeIntegration.phaserGameInstancePattern
                 (appending FarcadeIntegration.eventHandlersHook) d)
            = 1%nat) as Hlast.
  { intros d Hd. unfold FarcadeIntegration.phaserGameInstancePattern.
    erewrite call_count_silent; [done|closed_fact..]. }
  destruct (test FarcadeIntegration.gameOverScreenPattern d1) eqn:Ep.
  - assert (includes gameOverCall d2 = true) as ->
      by (apply occurrences_pos; lia).
    by apply Hlast.
  - assert (includes gameOverCall d2 = false) as ->
      by by apply occurrences_zero.
    assert (d2 = d1) as -> by by apply replace_absent.
    set (d3 := replace FarcadeIntegration.fallbackPattern _ d1).
    assert (occurrences gameOverCall d3 = 1%nat) as Hd3.
    { unfold d3, FarcadeIntegration.fallbackPattern.
      erewrite call_count_loud; [|closed_fact..]. rewrite Hd1.
      unfold FarcadeIntegration.fallbackPattern in Halt1.
      by rewrite Halt1. }
    by apply Hlast.
Qed.

(** With the call already in the document, both guards are closed. *)
Lemma remix_guarded html :
  includes gameOverCall html = true ->
  RemixIntegration.injectFarcadeGameLogic html
  = Said
      (replace RemixIntegration.phaserGameInstancePattern
         (appending RemixIntegration.eventHandlersHook)
         (replace RemixIntegration.gameOverScreenPattern
            (appending RemixIntegration.gameOverHook)
            (replace RemixIntegration.showTitleScreenPattern
               (appending RemixIntegration.readyHook) html)))
      [(LOG, "Injecting Farcade SDK game logic...")].
Proof.
  intros Hcall.
  assert (includes gameOverCall
            (replace RemixIntegration.gameOverScreenPattern
               (appending RemixIntegration.gameOverHook)
               (replace RemixIntegration.showTitleScreenPattern
                  (appending RemixIntegration.readyHook) html)) = true)
    as Hkept.
  { unfold RemixIntegration.gameOverScreenPattern,
      RemixIntegration.showTitleScreenPattern.
    eapply call_kept_by_rule; [closed_fact..|].
    eapply call_kept_by_rule; [closed_fact..|done]. }
  unfold RemixIntegration.injectFarcadeGameLogic.
  cbv [mbind mret Console_bind Console_ret console_log]. cbv zeta.
  rewrite Hkept. cbn [negb value transcript]. rewrite Hkept.
  reflexivity.
Qed.

Lemma farcade_guarded html :
  includes gameOverCall html = true ->
  FarcadeIntegration.injectFarcadeGameLogic html
  = Said
      (replace FarcadeIntegration.phaserGameInstancePattern
         (appending FarcadeIntegration.eventHandlersHook)
         (replace FarcadeIntegration.gameOverScreenPattern
            (appending FarcadeIntegration.gameOverHook)
            (replace FarcadeIntegration.showTitleScreenPattern
               (appending FarcadeIntegration.readyHook) html)))
      [(LOG, "Injecting Farcade SDK game logic...")].
Proof.
  intros Hcall.
  assert (includes gameOverCall
            (replace FarcadeIntegration.gameOverScreenPattern
               (appending FarcadeIntegration.gameOverHook)
               (replace FarcadeIntegration.showTitleScreenPattern
                  (appending FarcadeIntegration.readyHook) html)) = true)
    as Hkept.
  { unfold FarcadeIntegration.gameOverScreenPattern,
      FarcadeIntegration.showTitleScreenPattern.
    eapply call_kept_by_rule; [closed_fact..|].
    eapply call_kept_by_rule; [closed_fact..|done]. }
  unfold FarcadeIntegration.injectFarcadeGameLogic.
  cbv [mbind mret Console_bind Console_ret console_log]. cbv zeta.
  rewrite Hkept. reflexivity.
Qed.

End GameOverCall.

(** ** The SDK tag rule *)

Section SdkTag.
Import RegExp Lang.
Implicit Types (s l pre post text : list N).

Lemma in_regex_literal l u caps :
  in_regex [Plain (Lit l)] u caps <-> u = l /\ caps = [].
Proof.
  simpl. split.
  - intros (v & r & -> & -> & -> & ->). by rewrite app_nil_r.
  - intros [-> ->]. exists l, []. by rewrite app_nil_r.
Qed.

Lemma test_literal l s : test [Plain (Lit l)] s = includes l s.
Proof.
  apply eq_true_iff_eq. rewrite test_spec, includes_spec. split.
  - intros (a & u & b & caps & -> & [-> _]%in_regex_literal). by exists a, b.
  - intros (a & b & ->). exists a, l, b, []. split; [done|].
    by apply in_regex_literal.
Qed.

(** The replacement text goes in place of the first occurrence of the
    literal. *)
Lemma replace_text_literal l text s :
  includes l s = true ->
  exists pre post,
    s = pre ++ l ++ post
    /\ (forall a b, s = a ++ l ++ b -> (length pre <= length a)%nat)
    /\ replace_text [Plain (Lit l)] text s = pre ++ text ++ post.
Proof.
  rewrite <- test_literal. unfold replace_text.
  intros (r & Hex & ->)%(replace_present _ (fun _ _ => text)).
  pose proof (exec_leftmost _ _ _ Hex) as Hleft.
  apply exec_sound in Hex as (Hs & [Hm _]%in_regex_literal & _).
  exists (before r), (after r). rewrite Hm in Hs.
  split; [done|]. split; [|done].
  intros a b Hab. apply (Hleft a l b []); [done|].
  by apply in_regex_literal.
Qed.

Lemma replace_text_absent l text s :
  includes l s = false -> replace_text [Plain (Lit l)] text s = s.
Proof.
  rewrite <- test_literal. unfold replace_text. apply replace_absent.
Qed.

(** Two different places of [l] in [s] are two occurrences. *)
Lemma occurrences_two l a b a' b' :
  a ++ l ++ b = a' ++ l ++ b' -> (length a < length a')%nat ->
  (2 <= occurrences l (a ++ l ++ b))%nat.
Proof.
  intros E Hlen.
  apply app_eq_inv in E as [(k & Ha & Hb) | (k & Ha & Hb)].
  - rewrite Ha, length_app in Hlen. lia.
  - destruct k as [|x k].
    { rewrite app_nil_r in Ha. rewrite Ha in Hlen. lia. }
    etrans; [|apply occurrences_app_r]. rewrite Hb.
    change ((x :: k) ++ l ++ b') with (x :: (k ++ l ++ b')).
    cbn [occurrences].
    change (x :: k ++ l ++ b') with ((x :: k) ++ l ++ b').
    rewrite <- Hb, is_prefix_app.
    pose proof (occurrences_app_r l k (l ++ b')) as Hk.
    assert (0 < occurrences l (l ++ b'))%nat; [|lia].
    apply occurrences_pos, includes_spec. by exists [], b'.
Qed.

Lemma occurrence_unique l a b a' b' :
  occurrences l (a ++ l ++ b) = 1%nat ->
  a ++ l ++ b = a' ++ l ++ b' -> a = a' /\ b = b'.
Proof.
  intros Hone E.
  assert (length a = length a') as Hlen.
  { destruct (Nat.lt_trichotomy (length a) (length a'))
      as [Hlt | [Heq | Hgt]]; [|done|].
    - pose proof (occurrences_two _ _ _ _ _ E Hlt). lia.
    - symmetry in E. pose proof (occurrences_two _ _ _ _ _ E Hgt) as H2.
      rewrite E in H2. lia. }
  apply app_inj_1 in E as [-> E]; [|done].
  by apply app_inv_head in E as ->.
Qed.

End SdkTag.

(** ** The scripts run their rule table *)

Section Table.
Import RegExp Lang.

Lemma replace_text_before l h s :
  replace_text [Plain (Lit l)] (h ++ l) s
  = replace [Plain (Lit l)] (fun matched _ => h ++ matched) s.
Proof.
  unfold replace_text, replace.
  destruct (exec [Plain (Lit l)] s) as [r|] eqn:E; [|done].
  apply exec_sound in E as (_ & [-> _]%in_regex_literal & _). done.
Qed.

Lemma ruleSet_table sc html : ruleSet sc html = run_rules (rules sc) html.
Proof.
  unfold ruleSet, run_rules, step, apply_rule, replacer.
  destruct sc;
    cbn [injectFarcadeGameLogic_of injectFarcadeSDK_of rules foldl
         guarded anchor hook where_ andb].
  - rewrite remix_game_logic_value. cbv zeta.
    unfold RemixIntegration.headPattern. rewrite <- replace_text_before.
    unfold RemixIntegration.injectFarcadeSDK.
    cbv [mbind mret Console_bind Console_ret console_log value].
    by rewrite <- !app_assoc.
  - rewrite farcade_game_logic_value. cbv zeta.
    unfold FarcadeIntegration.headPattern. rewrite <- replace_text_before.
    unfold FarcadeIntegration.injectFarcadeSDK.
    cbv [mbind mret Console_bind Console_ret console_log value].
    by rewrite <- !app_assoc.
Qed.

End Table.

(** ** What one rule does to a document *)

Section RuleShape.
Import RegExp Lang.

Lemma rules_well_placed sc i r : rules sc !! i = Some r -> well_placed r.
Proof.
  destruct sc; do 7 (try destruct i as [|i]); cbn [rules lookup list_lookup];
    try done; intros [= <-]; try exact I.
  by exists [Lit (lit "showGameOverScreen() {"); StarLazy AnyChar;
             Lit (lit "this.playButton.on('pointerdown'");
             StarLazy AnyChar; Lit (lit "});")],
            [StarGreedy WhiteSpace; Lit (lit "}")].
Qed.

(** A rule whose anchor is found puts its text in or next to the
    first match, and changes nothing else. *)
Lemma apply_rule_shape r s :
  well_placed r -> test (anchor r) s = true ->
  exists pre m1 m2 post caps,
    s = pre ++ m1 ++ m2 ++ post
    /\ in_regex (anchor r) (m1 ++ m2) caps
    /\ (forall a u b caps', s = a ++ u ++ b -> in_regex (anchor r) u caps' ->
          (length pre <= length a)%nat)
    /\ apply_rule r s = pre ++ m1 ++ hook r ++ m2 ++ post.
Proof.
  intros Hwp Ht. unfold apply_rule, replacer.
  destruct (replace_present _ (replacer r) _ Ht) as (res & Hex & _).
  pose proof (exec_leftmost _ _ _ Hex) as Hleft.
  pose proof (exec_sound _ _ _ Hex) as (Hs & Hin & _).
  unfold replace. rewrite Hex. unfold well_placed in Hwp.
  destruct (where_ r).
  - exists (before res), [], (matched res), (after res), (captures res).
    by rewrite <- app_assoc.
  - exists (before res), (matched res), [], (after res), (captures res).
    unfold appending. by rewrite app_nil_r, <- app_assoc.
  - destruct Hwp as (b1 & b2 & Hre). rewrite Hre in Hin.
    destruct Hin as (v & rest & caps' & Hm & Hv & Hc & w & rest' & caps''
                     & -> & Hw & -> & -> & ->).
    rewrite app_nil_r in Hm.
    exists (before res), v, w, (after res), (captures res).
    split; [by rewrite Hs, Hm, <- app_assoc|].
    split; [|split; [done|]].
    + rewrite Hre, Hc. exists v, w, [w]. repeat split; [done|].
      exists w, [], []. by rewrite app_nil_r.
    + unfold between. rewrite Hc. cbn [lookup_total list_lookup_total].
      by rewrite <- !app_assoc.
Qed.

Lemma step_patches r d : well_placed r -> patches r d (step d r).
Proof.
  intros Hwp. unfold step.
  destruct (guarded r && includes gameOverCall d); [constructor|].
  destruct (test (anchor r) d) eqn:Et.
  - destruct (apply_rule_shape r d Hwp Et)
      as (pre & m1 & m2 & post & caps & Hd & Hin & _ & ->).
    by econstructor.
  - unfold apply_rule. rewrite replace_absent by done. constructor.
Qed.

Lemma patches_sublist r d d' : patches r d d' -> d `sublist_of` d'.
Proof.
  intros [|pre m1 m2 post caps -> _]; [done|].
  apply sublist_app; [done|]. apply sublist_app; [done|].
  by apply sublist_inserts_l.
Qed.

Lemma run_rules_snoc rs r d :
  run_rules (rs ++ [r]) d = step (run_rules rs d) r.
Proof. unfold run_rules. by rewrite foldl_app. Qed.

Lemma run_rules_sublist rs d :
  Forall well_placed rs -> d `sublist_of` run_rules rs d.
Proof.
  induction rs as [|r rs IH] using rev_ind; [done|].
  intros [Hrs Hr]%Forall_app. rewrite run_rules_snoc.
  etrans; [by apply IH|].
  rewrite Forall_singleton in Hr.
  apply (patches_sublist r). by apply step_patches.
Qed.

End RuleShape.

(** ** The run *)

Section Run.
Variable config : Config.
Variables sdk logic : list N -> Console (list N).

Let run := integrateFarcade config sdk logic.
Let start : entry := (LOG, "Starting AESOPNE Farcade integration process...").

Lemma fs_readFileSync_say path l msg w :
  fs_readFileSync path (say l msg w) = fs_readFileSync path w.
Proof. reflexivity. Qed.

(** The source cannot be read: two error lines, and nothing else. *)
Lemma run_read_failure w :
  fs_readFileSync (indexTemplate config) w = Throws ->
  (run w).1 = Returns tt
  /\ files (run w).2 = files w
  /\ console (run w).2
     = console w
       ++ [ start;
            (ERROR, "Error reading file " +:+ indexTemplate config +:+ ":");
            (ERROR, "Could not read HTML template. Aborting.") ].
Proof.
  intros Hread. unfold run, integrateFarcade, readFile.
  rewrite fs_readFileSync_say, Hread. cbn.
  by rewrite <- !app_assoc.
Qed.

(** The source is read and is not empty: the rules are applied and
    the result is handed to [writeFile]. *)
Lemma run_transforms w html :
  fs_readFileSync (indexTemplate config) w = Returns html ->
  html <> [] ->
  run w
  = let out := value (logic (value (sdk html))) in
    let w1 := says (transcript (logic (value (sdk html))))
                (says (transcript (sdk html)) (say LOG start.2 w)) in
    match writeFile (outputFile config) out w1 with
    | (Throws, w2) => (Throws, w2)
    | (Returns _, w2) => (Returns tt, says (closing_remarks config) w2)
    end.
Proof.
  intros Hread Hne. unfold run, integrateFarcade, readFile.
  rewrite fs_readFileSync_say, Hread.
  destruct html as [|c html]; [done|]. reflexivity.
Qed.

Lemma run_success w html :
  fs_readFileSync (indexTemplate config) w = Returns html ->
  html <> [] ->
  write_faults w (outputFile config) = NoFault ->
  (run w).1 = Returns tt
  /\ files (run w).2
     = <[outputFile config := value (logic (value (sdk html)))]> (files w)
  /\ console (run w).2
     = console w ++ [start] ++ transcript (sdk html)
       ++ transcript (logic (value (sdk html)))
       ++ [(LOG, "Successfully created file: " +:+ outputFile config)]
       ++ closing_remarks config.
Proof.
  intros Hread Hne Hw. rewrite (run_transforms w html) by done.
  cbv zeta. unfold writeFile, fs_writeFileSync. cbn [write_faults says say].
  rewrite Hw. cbn. by rewrite <- !app_assoc.
Qed.

Lemma run_write_failure w html :
  fs_readFileSync (indexTemplate config) w = Returns html ->
  html <> [] ->
  write_faults w (outputFile config) <> NoFault ->
  (run w).1 = Returns tt
  /\ (forall path, path <> outputFile config ->
        files (run w).2 !! path = files w !! path)
  /\ console (run w).2
     = console w ++ [start] ++ transcript (sdk html)
       ++ transcript (logic (value (sdk html)))
       ++ [(ERROR, "Error writing file " +:+ outputFile config +:+ ":")]
       ++ closing_remarks config.
Proof.
  intros Hread Hne Hw. rewrite (run_transforms w html) by done.
  cbv zeta. unfold writeFile, fs_writeFileSync. cbn [write_faults says say].
  destruct (write_faults w (outputFile config)) as [| |n]; [done| |]; cbn.
  - split; [done|]. split; [done|]. by rewrite <- !app_assoc.
  - split; [done|]. split; [|by rewrite <- !app_assoc].
    intros path Hp. by rewrite lookup_insert_ne.
Qed.

End Run.

(** ** Facts about the two scripts *)

Section Scripts.
Import RegExp Lang.

Lemma injectFarcadeSDK_value sc html :
  value (injectFarcadeSDK_of sc html)
  = replace_text [Plain (Lit (lit "</head>"))]
      (farcadeScriptTag_of sc ++ [LF] ++ lit "</head>") html.
Proof. by destruct sc. Qed.

(** The replacement string of the SDK tag rule has no [$]: it is taken
    as it is, as [replace_text] has it. *)
Lemma sdk_replacement_has_no_dollar sc :
  existsb (N.eqb 36) (farcadeScriptTag_of sc ++ [LF] ++ lit "</head>")
  = false.
Proof. by destruct sc. Qed.

Lemma integrateFarcade_of_unfold sc :
  integrateFarcade_of sc
  = integrateFarcade RemixIntegration.config (injectFarcadeSDK_of sc)
      (injectFarcadeGameLogic_of sc).
Proof. by destruct sc. Qed.

(** [writeFile] hands its caller the same result whether the write
    succeeded or failed. *)
Lemma writeFile_returns filePath content w :
  (writeFile filePath content w).1 = Returns tt.
Proof.
  unfold writeFile. by destruct (fs_writeFileSync filePath content w) as [[] ?].
Qed.

Lemma run_rules_absent rs d :
  Forall (fun r => test (anchor r) d = false) rs -> run_rules rs d = d.
Proof.
  unfold run_rules. induction rs as [|r rs IH]; [done|].
  intros [Hr Hrs]%Forall_cons. cbn [foldl].
  assert (step d r = d) as ->; [|by apply IH].
  unfold step, apply_rule.
  destruct (guarded r && includes gameOverCall d); [done|].
  by apply replace_absent.
Qed.

Lemma transcripts_are_logs sc d d' :
  Forall (fun e : entry =>
            e.1 = LOG
            /\ e.2 <> "Successfully created file: " +:+ destPath)
    (transcript (injectFarcadeSDK_of sc d)
     ++ transcript (injectFarcadeGameLogic_of sc d')).
Proof.
  destruct sc; cbn [injectFarcadeSDK_of injectFarcadeGameLogic_of];
    unfold RemixIntegration.injectFarcadeSDK,
      RemixIntegration.injectFarcadeGameLogic,
      FarcadeIntegration.injectFarcadeSDK,
      FarcadeIntegration.injectFarcadeGameLogic;
    cbv [mbind mret Console_bind Console_ret console_log]; cbv zeta;
    repeat (match goal with
            | |- context [negb ?b] => destruct b
            end; cbn [negb value transcript app]);
    repeat (constructor; [by split|]); constructor.
Qed.

(** The SDK tag goes in right before a [<], which no literal and no
    white space of the fallback anchors can match. *)
Lemma sdk_keeps_anchor sc body html :
  foreign 60 body = true ->
  test [Capture body] html = true ->
  test [Capture body] (value (injectFarcadeSDK_of sc html)) = true.
Proof.
  intros Hf Ht. rewrite injectFarcadeSDK_value.
  destruct (includes (lit "</head>") html) eqn:Eh.
  - destruct (replace_text_literal _
                (farcadeScriptTag_of sc ++ [LF] ++ lit "</head>") _ Eh)
      as (pre & post & Hs & _ & ->).
    apply test_spec. apply test_spec in Ht. rewrite Hs in Ht.
    change (lit "</head>") with (60 :: lit "/head>") in *.
    replace (pre ++ (farcadeScriptTag_of sc ++ [LF] ++ 60 :: lit "/head>")
             ++ post)
      with (pre ++ (farcadeScriptTag_of sc ++ [LF])
            ++ 60 :: (lit "/head>" ++ post))
      by by rewrite <- !app_assoc.
    by apply occurs_insert_before.
  - by rewrite replace_text_absent.
Qed.

Lemma sdk_keeps_call_count sc html :
  occurrences gameOverCall (value (injectFarcadeSDK_of sc html))
  = occurrences gameOverCall html.
Proof.
  rewrite injectFarcadeSDK_value.
  destruct (includes (lit "</head>") html) eqn:Eh;
    [|by rewrite replace_text_absent].
  destruct (replace_text_literal _
              (farcadeScriptTag_of sc ++ [LF] ++ lit "</head>") _ Eh)
    as (pre & post & -> & _ & ->).
  assert (exists tag', farcadeScriptTag_of sc = 32 :: tag'
                       /\ occurrences gameOverCall tag' = 0%nat)
    as (tag' & -> & Htag).
  { destruct sc;
      (eexists; split; [reflexivity | vm_compute; reflexivity]). }
  change (lit "</head>") with (60 :: lit "/head>").
  assert (forall c, existsb (N.eqb c) gameOverCall = false ->
                    c ∉ gameOverCall) as Hsep
    by (intros c; apply not_elem_of_existsb).
  rewrite <- !app_assoc. cbn [app].
  rewrite !(occurrences_sep _ pre) by (apply Hsep; vm_compute; reflexivity).
  rewrite (occurrences_sep _ tag' LF)
    by (apply Hsep; vm_compute; reflexivity).
  pose proof (occurrences_sep gameOverCall [] 60 (lit "/head>" ++ post))
    as H60.
  cbn [app] in H60. rewrite H60 by (apply Hsep; vm_compute; reflexivity).
  rewrite Htag. simpl. lia.
Qed.

End Scripts.

(** ** When the rules leave a document as it is *)

Section Unchanged.
Import RegExp Lang.
Implicit Types (r : rule) (rs : list rule) (d : list N).

Lemma game_logic_table sc html :
  value (injectFarcadeGameLogic_of sc html) = run_rules (tail (rules sc)) html.
Proof.
  destruct sc; cbn [injectFarcadeGameLogic_of].
  - by rewrite remix_game_logic_value.
  - by rewrite farcade_game_logic_value.
Qed.

Lemma sdk_table sc html :
  value (injectFarcadeSDK_of sc html) = run_rules (take 1 (rules sc)) html.
Proof.
  rewrite injectFarcadeSDK_value.
  unfold run_rules, step, apply_rule, replacer.
  destruct sc;
    cbn [rules take foldl guarded anchor hook where_ andb];
    [unfold RemixIntegration.headPattern
    |unfold FarcadeIntegration.headPattern];
    rewrite <- replace_text_before; cbn [farcadeScriptTag_of];
    by rewrite <- !app_assoc.
Qed.

(** A rule that does not fire leaves the document as it is. *)
Lemma step_idle r d : fires r d = false -> step d r = d.
Proof.
  unfold step, fires.
  destruct (guarded r && includes gameOverCall d); [done|].
  cbn [negb andb]. intros Ht. unfold apply_rule. by apply replace_absent.
Qed.

(** A rule that fires makes the document longer by its hook. *)
Lemma step_length r d :
  well_placed r ->
  length (step d r)
  = (length d + if fires r d then length (hook r) else 0)%nat.
Proof.
  intros Hwp. destruct (fires r d) eqn:Ef;
    [|rewrite step_idle by done; lia].
  unfold step, fires in *.
  destruct (guarded r && includes gameOverCall d); [done|].
  cbn [negb andb] in Ef.
  destruct (apply_rule_shape r d Hwp Ef)
    as (pre & m1 & m2 & post & caps & Hd & _ & _ & ->).
  rewrite Hd at 1. rewrite !length_app. lia.
Qed.

(** The rules give the document back exactly when none of them
    fires. *)
Lemma run_rules_unchanged rs d :
  Forall well_placed rs -> Forall (fun r => hook r <> []) rs ->
  run_rules rs d = d <-> Forall (fun r => fires r d = false) rs.
Proof.
  intros Hwp Hh. induction rs as [|r rs IH]; [done|].
  apply Forall_cons in Hwp as [Hr Hwp]. apply Forall_cons in Hh as [Hhr Hh].
  change (run_rules (r :: rs) d) with (run_rules rs (step d r)).
  split.
  - intros E.
    assert (fires r d = false) as Hf.
    { destruct (fires r d) eqn:Ef; [exfalso|done].
      pose proof (step_length r d Hr) as Hl. rewrite Ef in Hl.
      pose proof (run_rules_sublist rs (step d r) Hwp) as Hsub.
      apply sublist_length in Hsub. rewrite E in Hsub.
      destruct (hook r); [done|]. simpl in Hl. lia. }
    constructor; [done|]. apply IH; [done|done|].
    by rewrite step_idle in E.
  - intros [Hf Hrs]%Forall_cons. rewrite step_idle by done. by apply IH.
Qed.

Lemma rules_have_hooks sc : Forall (fun r => hook r <> []) (rules sc).
Proof. destruct sc; by repeat constructor. Qed.

Lemma rules_all_well_placed sc : Forall well_placed (rules sc).
Proof. apply Forall_lookup. intros i r. apply rules_well_placed. Qed.

End Unchanged.

(** * The claims *)

Import RegExp Lang.

(** ** C1: the destination cannot be written *)

(** C1, as stated, fails: in a world where writing the destination
    fails, [fs.writeFileSync] throws, but [writeFile] catches the error
    and returns normally, and so does the run: no error reaches a
    caller. *)
Lemma write_error_not_surfaced_counterexample :
  (fs_writeFileSync destPath (ruleSet Remix plain_document)
     unwritable_world).1 = Throws
  /\ (writeFile destPath (ruleSet Remix plain_document)
        unwritable_world).1 = Returns tt
  /\ (integrateFarcade_of Remix unwritable_world).1 = Returns tt
  /\ (integrateFarcade_of Remix unwritable_world).1 <> Throws.
Proof. by vm_compute. Qed.

(** C1, amended: for every run in which writing the destination file
    fails, the failure is reported on the error console ([Error writing
    file index.farcade.html:]) and no line says that the file was
    created, so the failure is not silent; but no error is surfaced to a
    caller: [writeFile] catches it and returns normally, as it does on
    success, and so does the run.  The source file is left untouched. *)
Theorem write_failure_reported_not_raised
    (sc : script) (w : World) (html : list N) :
  fs_readFileSync sourcePath w = Returns html ->
  html <> [] ->
  write_faults w destPath <> NoFault ->
  (forall content w', (writeFile destPath content w').1 = Returns tt)
  /\ (integrateFarcade_of sc w).1 = Returns tt
  /\ ((ERROR, "Error writing file index.farcade.html:")
      ∈ drop (length (console w)) (console (integrateFarcade_of sc w).2))
  /\ ((LOG, "Successfully created file: index.farcade.html")
      ∉ drop (length (console w)) (console (integrateFarcade_of sc w).2))
  /\ files (integrateFarcade_of sc w).2 !! sourcePath
     = files w !! sourcePath
  /\ fs_readFileSync sourcePath (integrateFarcade_of sc w).2 = Returns html.
Proof.
  intros Hread Hne Hfault. rewrite integrateFarcade_of_unfold.
  destruct (run_write_failure RemixIntegration.config (injectFarcadeSDK_of sc)
              (injectFarcadeGameLogic_of sc) w html Hread Hne Hfault)
    as (Hret & Hfiles & Hcon).
  assert (files (integrateFarcade RemixIntegration.config
                   (injectFarcadeSDK_of sc) (injectFarcadeGameLogic_of sc) w).2
            !! sourcePath = files w !! sourcePath) as Hsrc
    by by apply Hfiles.
  split; [intros content w'; apply writeFile_returns|].
  split; [done|]. rewrite Hcon, drop_app_length.
  split; [|split; [|split; [done|]]].
  - rewrite !elem_of_app. right. right. right. left.
    by apply list_elem_of_singleton.
  - pose proof (transcripts_are_logs sc html
                  (value (injectFarcadeSDK_of sc html))) as Hlogs.
    apply Forall_app in Hlogs as [Hl1 Hl2].
    rewrite Forall_forall in Hl1. rewrite Forall_forall in Hl2.
    rewrite !elem_of_app.
    intros [He | [He | [He | [He | He]]]].
    + apply list_elem_of_singleton in He. discriminate He.
    + by destruct (Hl1 _ He) as [_ Hn].
    + by destruct (Hl2 _ He) as [_ Hn].
    + apply list_elem_of_singleton in He. discriminate He.
    + unfold closing_remarks in He.
      repeat (apply elem_of_cons in He as [He | He]; [discriminate He|]).
      by apply elem_of_nil in He.
  - unfold fs_readFileSync in *.
    assert (read_denied (integrateFarcade RemixIntegration.config
              (injectFarcadeSDK_of sc) (injectFarcadeGameLogic_of sc) w).2
            = read_denied w) as ->.
    { rewrite (run_transforms _ _ _ w html) by done.
      cbv zeta. unfold writeFile, fs_writeFileSync.
      cbn [write_faults says say].
      by destruct (write_faults w (outputFile RemixIntegration.config)). }
    by rewrite Hsrc.
Qed.

Lemma write_failure_reported_not_raised_witness :
  fs_readFileSync sourcePath unwritable_world = Returns plain_document
  /\ plain_document <> []
  /\ write_faults unwritable_world destPath <> NoFault
  /\ (integrateFarcade_of Remix unwritable_world).1 = Returns tt
  /\ fs_readFileSync sourcePath (integrateFarcade_of Remix unwritable_world).2
     = Returns plain_document.
Proof.
  split; [vm_compute; reflexivity|].
  split; [discriminate|].
  split; [discriminate|].
  destruct (write_failure_reported_not_raised Remix unwritable_world
              plain_document)
    as (_ & H1 & _ & _ & _ & H5);
    [vm_compute; reflexivity | discriminate | discriminate |].
  split; [exact H1 | exact H5].
Defined.

(** ** C2: a document without the head-closing marker *)

(** C2, as stated, fails: a document without the head-closing marker
    that holds the engine-construction statement does not come out
    equal to the input, the event handlers are injected. *)
Lemma head_absent_output_counterexample :
  includes (lit "</head>") headless_document = false
  /\ ruleSet Remix headless_document <> headless_document.
Proof.
  split; [vm_compute; reflexivity|].
  intros E. apply (f_equal length) in E. vm_compute in E. discriminate E.
Qed.

(** C2, amended: for any non-empty input document that does not contain
    the head-closing marker, the SDK tag rule leaves the document as it
    is, so the output document is what the behaviour rules make of the
    input.  It is equal to the input exactly when no behaviour rule
    fires on it (the anchor of the rule is not found in the input, or
    the rule is a guarded fallback and the input already holds the
    game-over call), so in particular when no anchor is found.  The run
    raises no error: it returns normally, whether or not the destination
    can be written; the only error line it can print is the report of a
    failed write, and when the write succeeds it prints none and the
    destination holds that output. *)
Theorem head_absent_sdk_rule_is_noop
    (sc : script) (html : list N) (w : World) :
  includes (lit "</head>") html = false ->
  html <> [] ->
  fs_readFileSync sourcePath w = Returns html ->
  value (injectFarcadeSDK_of sc html) = html
  /\ ruleSet sc html = value (injectFarcadeGameLogic_of sc html)
  /\ (ruleSet sc html = html
      <-> Forall (fun r => fires r html = false) (tail (rules sc)))
  /\ (Forall (fun r => test (anchor r) html = false) (rules sc) ->
      ruleSet sc html = html)
  /\ (integrateFarcade_of sc w).1 = Returns tt
  /\ Forall (fun e : entry =>
               e.1 = LOG
               \/ e = (ERROR, "Error writing file index.farcade.html:"))
       (drop (length (console w)) (console (integrateFarcade_of sc w).2))
  /\ (write_faults w destPath = NoFault ->
      files (integrateFarcade_of sc w).2 !! destPath
      = Some (value (injectFarcadeGameLogic_of sc html))
      /\ Forall (fun e : entry => e.1 = LOG)
           (drop (length (console w))
              (console (integrateFarcade_of sc w).2))).
Proof.
  intros Hhead Hne Hread.
  assert (value (injectFarcadeSDK_of sc html) = html) as Hsdk.
  { rewrite injectFarcadeSDK_value. by apply replace_text_absent. }
  assert (ruleSet sc html = value (injectFarcadeGameLogic_of sc html))
    as Hset by (unfold ruleSet; by rewrite Hsdk).
  assert (Forall (fun e : entry => e.1 = LOG)
            (transcript (injectFarcadeSDK_of sc html)
             ++ transcript
                  (injectFarcadeGameLogic_of sc
                     (value (injectFarcadeSDK_of sc html)))))
    as Hlogs.
  { eapply Forall_impl; [apply transcripts_are_logs|]. by intros e [He _]. }
  split; [done|]. split; [done|]. split.
  { rewrite Hset, game_logic_table. apply run_rules_unchanged.
    - pose proof (rules_all_well_placed sc) as Hwp.
      destruct (rules sc); [done|]. by apply Forall_cons in Hwp as [_ Hwp].
    - pose proof (rules_have_hooks sc) as Hh.
      destruct (rules sc); [done|]. by apply Forall_cons in Hh as [_ Hh]. }
  split; [intros Hnone; rewrite ruleSet_table; by apply run_rules_absent|].
  rewrite integrateFarcade_of_unfold.
  assert (write_faults w destPath = NoFault
          \/ write_faults w destPath <> NoFault) as [Hwrite|Hwrite]
    by (destruct (write_faults w destPath); [by left | by right..]).
  - destruct (run_success RemixIntegration.config (injectFarcadeSDK_of sc)
                (injectFarcadeGameLogic_of sc) w html Hread Hne Hwrite)
      as (Hret & Hfiles & Hcon).
    assert (Forall (fun e : entry => e.1 = LOG)
              (drop (length (console w))
                 (console
                    (integrateFarcade RemixIntegration.config
                       (injectFarcadeSDK_of sc)
                       (injectFarcadeGameLogic_of sc) w).2))) as Hall.
    { rewrite Hcon, drop_app_length.
      apply Forall_app. split; [by repeat constructor|].
      rewrite app_assoc. apply Forall_app. split; [done|].
      by repeat constructor. }
    split; [done|]. split.
    + eapply Forall_impl; [exact Hall|]. intros e He. by left.
    + intros _. split; [|done].
      rewrite Hfiles, Hsdk. apply lookup_insert_eq.
  - destruct (run_write_failure RemixIntegration.config
                (injectFarcadeSDK_of sc) (injectFarcadeGameLogic_of sc)
                w html Hread Hne Hwrite) as (Hret & _ & Hcon).
    split; [done|]. split; [|done].
    rewrite Hcon, drop_app_length.
    apply Forall_app. split; [repeat constructor; by left|].
    rewrite app_assoc. apply Forall_app. split.
    + eapply Forall_impl; [exact Hlogs|]. intros e He. by left.
    + constructor; [by right|]. repeat constructor; by left.
Qed.

(** The event-handler rule fires on [headless_document]; on
    [already_patched_document] the alternative anchor is found, but
    the guard is closed and no rule fires. *)
Lemma head_absent_sdk_rule_is_noop_witness :
  includes (lit "</head>") headless_document = false
  /\ headless_document <> []
  /\ fs_readFileSync sourcePath (world_with headless_document NoFault)
     = Returns headless_document
  /\ value (injectFarcadeSDK_of Remix headless_document) = headless_document
  /\ (integrateFarcade_of Remix (world_with headless_document NoFault)).1
     = Returns tt
  /\ (ruleSet Remix headless_document = headless_document
      <-> Forall (fun r => fires r headless_document = false)
            (tail (rules Remix))).
Proof.
  split; [vm_compute; reflexivity|].
  split; [discriminate|].
  split; [vm_compute; reflexivity|].
  destruct (head_absent_sdk_rule_is_noop Remix headless_document
              (world_with headless_document NoFault))
    as (H1 & _ & H3 & _ & H5 & _);
    [vm_compute; reflexivity | discriminate | vm_compute; reflexivity | ].
  split; [exact H1|]. split; [exact H5 | exact H3].
Defined.

(** ** C3: one game-over hook *)

(** C3, as stated, fails: a document with the first fallback anchor and
    no primary anchor, which already holds the game-over call twice,
    comes out with two occurrences of the call (the guard keeps every
    game-over fallback rule from firing, and nothing is removed). *)
Lemma game_over_hook_count_counterexample :
  test (primaryAnchor Remix) already_patched_document = false
  /\ test (firstFallbackAnchor Remix) already_patched_document = true
  /\ occurrences gameOverCall
       (value (injectFarcadeGameLogic_of Remix already_patched_document))
     <> 1%nat.
Proof. by vm_compute. Qed.

(** C3, amended: for every input document whose primary game-over anchor
    is absent, whose first fallback anchor is present, and which does not
    already contain the game-over call, the output contains the injected
    game-over call exactly once.  This holds for both scripts, for the
    behaviour rules alone and for the whole rule set. *)
Theorem exactly_one_game_over_hook (sc : script) (html : list N) :
  test (primaryAnchor sc) html = false ->
  test (firstFallbackAnchor sc) html = true ->
  includes gameOverCall html = false ->
  occurrences gameOverCall (value (injectFarcadeGameLogic_of sc html))
  = 1%nat
  /\ occurrences gameOverCall (ruleSet sc html) = 1%nat.
Proof.
  intros _ Hfallback Hnone.
  assert (forall d, test (firstFallbackAnchor sc) d = true ->
            includes gameOverCall d = false ->
            occurrences gameOverCall (value (injectFarcadeGameLogic_of sc d))
            = 1%nat) as Hone.
  { intros d Hd Hn. destruct sc.
    - by apply remix_exactly_one.
    - by apply farcade_exactly_one. }
  split; [by apply Hone|]. unfold ruleSet. apply Hone.
  - destruct sc; cbn [firstFallbackAnchor] in *;
      (apply sdk_keeps_anchor; [vm_compute; reflexivity | done]).
  - apply occurrences_zero. rewrite sdk_keeps_call_count.
    by apply occurrences_zero.
Qed.

Lemma exactly_one_game_over_hook_witness :
  test (primaryAnchor Remix) fallback_only_document = false
  /\ test (firstFallbackAnchor Remix) fallback_only_document = true
  /\ includes gameOverCall fallback_only_document = false
  /\ occurrences gameOverCall
       (value (injectFarcadeGameLogic_of Remix fallback_only_document))
     = 1%nat
  /\ occurrences gameOverCall (ruleSet Remix fallback_only_document)
     = 1%nat.
Proof.
  split; [vm_compute; reflexivity|].
  split; [vm_compute; reflexivity|].
  split; [vm_compute; reflexivity|].
  apply (exactly_one_game_over_hook Remix fallback_only_document);
    vm_compute; reflexivity.
Defined.

(** ** C4: the two scripts compared *)

(** C4, as stated, fails: on a document with the primary game-over
    anchor the two scripts give different outputs; remixIntegration.js
    injects a delay of 4000, the other script one of 1000. *)
Lemma scripts_differ_counterexample :
  ruleSet Remix primary_document <> ruleSet Farcade primary_document
  /\ includes (lit "delayedCall(4000,") (ruleSet Remix primary_document)
     = true
  /\ includes (lit "delayedCall(4000,") (ruleSet Farcade primary_document)
     = false
  /\ includes (lit "delayedCall(1000,") (ruleSet Farcade primary_document)
     = true.
Proof.
  split; [|by vm_compute].
  intros E. apply (f_equal (includes (lit "delayedCall(4000,"))) in E.
  vm_compute in E. discriminate E.
Qed.

(** C4, amended: the two scripts have the same SDK tag rule, ready rule
    and event-handler rule, and differ in their game-over rules (other
    anchors, one more fallback in remixIntegration.js, and a delay of
    4000 in the hooks of remixIntegration.js against 1000 in those of the
    other script).  So they produce identical output for every input
    document in which no game-over anchor of either script is found when
    the game-over rules run. *)
Theorem scripts_agree_without_game_over_anchor (html : list N) :
  no_game_over_anchor (value (injectFarcadeSDK_of Remix html)) = true ->
  ruleSet Remix html = ruleSet Farcade html
  /\ value (injectFarcadeSDK_of Remix html)
     = value (injectFarcadeSDK_of Farcade html)
  /\ Forall (fun h => includes (lit "delayedCall(4000,") h = true)
       [RemixIntegration.gameOverHook; RemixIntegration.alternativeHook;
        RemixIntegration.endOfMethodHook]
  /\ Forall (fun h => includes (lit "delayedCall(1000,") h = true)
       [FarcadeIntegration.gameOverHook; FarcadeIntegration.fallbackHook].
Proof.
  intros Hnone. split; [|split; [done|split; by repeat constructor]].
  unfold ruleSet. cbn [injectFarcadeGameLogic_of].
  change (value (injectFarcadeSDK_of Farcade html))
    with (value (injectFarcadeSDK_of Remix html)).
  set (d := value (injectFarcadeSDK_of Remix html)) in *.
  unfold no_game_over_anchor in Hnone. cbv zeta in Hnone.
  rewrite !andb_true_iff, !negb_true_iff in Hnone.
  destruct Hnone as ((((Hp & Ha) & He) & Hfp) & Hff).
  rewrite remix_game_logic_value, farcade_game_logic_value. cbv zeta.
  change FarcadeIntegration.showTitleScreenPattern
    with RemixIntegration.showTitleScreenPattern.
  change FarcadeIntegration.readyHook with RemixIntegration.readyHook.
  set (d1 := replace RemixIntegration.showTitleScreenPattern _ d) in *.
  rewrite (replace_absent _ _ _ Hp), (replace_absent _ _ _ Hfp).
  rewrite (replace_absent _ _ _ Ha), (replace_absent _ _ _ Hff).
  destruct (includes gameOverCall d1) eqn:E; rewrite E; [done|].
  by rewrite (replace_absent _ _ _ He).
Qed.

Lemma scripts_agree_without_game_over_anchor_witness :
  no_game_over_anchor (value (injectFarcadeSDK_of Remix headless_document))
  = true
  /\ ruleSet Remix headless_document = ruleSet Farcade headless_document.
Proof.
  split; [vm_compute; reflexivity|].
  apply (scripts_agree_without_game_over_anchor headless_document).
  vm_compute; reflexivity.
Defined.

(** ** C5: the SDK script reference *)

(** C5, as stated, fails: a document with one head-closing marker that
    already holds the SDK script reference comes out with the reference
    twice. *)
Lemma sdk_reference_count_counterexample :
  occurrences (lit "</head>") tagged_document = 1%nat
  /\ occurrences (farcadeScriptTag_of Remix)
       (value (injectFarcadeSDK_of Remix tagged_document))
     <> 1%nat.
Proof. by vm_compute. Qed.

(** C5, amended: for every input document that contains the
    head-closing marker exactly once and does not already contain the SDK
    script reference, the output of the SDK tag rule contains the
    reference exactly once, immediately before the marker (a line feed
    between them), and the text before and after is unchanged. *)
Theorem sdk_reference_once_before_head
    (sc : script) (html pre post : list N) :
  html = pre ++ lit "</head>" ++ post ->
  occurrences (lit "</head>") html = 1%nat ->
  includes (farcadeScriptTag_of sc) html = false ->
  value (injectFarcadeSDK_of sc html)
  = pre ++ farcadeScriptTag_of sc ++ [LF] ++ lit "</head>" ++ post
  /\ occurrences (farcadeScriptTag_of sc) (value (injectFarcadeSDK_of sc html))
     = 1%nat.
Proof.
  intros Hhtml Hone Hfresh.
  assert (value (injectFarcadeSDK_of sc html)
          = pre ++ farcadeScriptTag_of sc ++ [LF] ++ lit "</head>" ++ post)
    as Hout.
  { rewrite injectFarcadeSDK_value.
    assert (includes (lit "</head>") html = true) as Hin
      by (apply occurrences_pos; lia).
    destruct (replace_text_literal _
                (farcadeScriptTag_of sc ++ [LF] ++ lit "</head>") _ Hin)
      as (pre0 & post0 & Hs & _ & ->).
    rewrite Hs in Hone. rewrite Hs in Hhtml.
    destruct (occurrence_unique _ _ _ _ _ Hone Hhtml) as [-> ->].
    by rewrite <- !app_assoc. }
  split; [done|]. rewrite Hout.
  apply occurrences_zero in Hfresh. rewrite Hhtml in Hfresh.
  pose proof (occurrences_app_l (farcadeScriptTag_of sc) pre
                (lit "</head>" ++ post)) as Hpre.
  pose proof (occurrences_app_r (farcadeScriptTag_of sc) pre
                (lit "</head>" ++ post)) as Hpost.
  rewrite app_assoc. cbn [app].
  rewrite occurrences_sep
    by (apply not_elem_of_existsb; destruct sc; vm_compute; reflexivity).
  rewrite occurrences_app_self
    by (destruct sc; (discriminate || (vm_compute; reflexivity))).
  lia.
Qed.

Lemma sdk_reference_once_before_head_witness :
  plain_document = lit "<html><head>" ++ lit "</head>" ++ lit "<body></body></html>"
  /\ occurrences (lit "</head>") plain_document = 1%nat
  /\ includes (farcadeScriptTag_of Remix) plain_document = false
  /\ value (injectFarcadeSDK_of Remix plain_document)
     = lit "<html><head>" ++ farcadeScriptTag_of Remix ++ [LF]
       ++ lit "</head>" ++ lit "<body></body></html>"
  /\ occurrences (farcadeScriptTag_of Remix)
       (value (injectFarcadeSDK_of Remix plain_document)) = 1%nat.
Proof.
  split; [vm_compute; reflexivity|].
  split; [vm_compute; reflexivity|].
  split; [vm_compute; reflexivity|].
  apply (sdk_reference_once_before_head Remix plain_document
           (lit "<html><head>") (lit "<body></body></html>"));
    vm_compute; reflexivity.
Defined.

(** ** C6: the source cannot be read *)

(** C6: whenever the source document cannot be loaded (the file is
    absent or unreadable), the run reports the read error and aborts
    before any transformation: [readFile] hands [null] to the run, the
    console gets the start line and the two error lines and nothing
    else, so no rule is applied, and no file is written, the file system
    is left as it was. *)
Theorem read_failure_aborts (sc : script) (w : World) :
  read_denied w sourcePath = true \/ files w !! sourcePath = None ->
  (readFile sourcePath w).1 = Returns None
  /\ files (integrateFarcade_of sc w).2 = files w
  /\ console (integrateFarcade_of sc w).2
     = console w
       ++ [ (LOG, "Starting AESOPNE Farcade integration process...");
            (ERROR, "Error reading file index.html:");
            (ERROR, "Could not read HTML template. Aborting.") ].
Proof.
  intros Hfail.
  assert (fs_readFileSync sourcePath w = Throws) as Hread.
  { unfold fs_readFileSync. destruct Hfail as [-> | ->]; [done|].
    by destruct (read_denied w sourcePath). }
  split; [unfold readFile; by rewrite Hread|].
  rewrite integrateFarcade_of_unfold.
  destruct (run_read_failure RemixIntegration.config (injectFarcadeSDK_of sc)
              (injectFarcadeGameLogic_of sc) w Hread) as (_ & Hfiles & Hcon).
  split; [done|]. exact Hcon.
Qed.

Lemma read_failure_aborts_witness :
  (read_denied empty_world sourcePath = true
   \/ files empty_world !! sourcePath = None)
  /\ files (integrateFarcade_of Remix empty_world).2 = files empty_world
  /\ console (integrateFarcade_of Remix empty_world).2
     = [ (LOG, "Starting AESOPNE Farcade integration process...");
         (ERROR, "Error reading file index.html:");
         (ERROR, "Could not read HTML template. Aborting.") ].
Proof.
  split; [right; reflexivity|].
  destruct (read_failure_aborts Remix empty_world) as (_ & H2 & H3);
    [right; reflexivity|].
  split; [exact H2 | exact H3].
Defined.

(** ** C7: the rules only insert *)

(** C7: for every input document, every rule of the script takes the
    document made by the rules before it to the same document, or to
    that document with the text of the rule inserted in or next to a text
    its anchor matches; no rule deletes or alters a code unit.  So the
    input document is what is left of the output when the injected
    texts are taken out: it is a subsequence of the output. *)
Theorem output_is_input_with_insertions
    (sc : script) (html : list N) (i : nat) (r : rule) :
  rules sc !! i = Some r ->
  patches r (run_rules (take i (rules sc)) html)
    (run_rules (take (S i) (rules sc)) html)
  /\ html `sublist_of` ruleSet sc html
  /\ html `sublist_of` value (injectFarcadeGameLogic_of sc html).
Proof.
  intros Hr. split; [|split].
  - rewrite (take_S_r _ _ _ Hr), run_rules_snoc.
    apply step_patches. by apply (rules_well_placed sc i).
  - rewrite ruleSet_table. apply run_rules_sublist.
    apply Forall_lookup. intros j r'. apply rules_well_placed.
  - assert (value (injectFarcadeGameLogic_of sc html)
            = run_rules (tail (rules sc)) html) as ->.
    { destruct sc; cbn [injectFarcadeGameLogic_of].
      - by rewrite remix_game_logic_value.
      - by rewrite farcade_game_logic_value. }
    apply run_rules_sublist.
    apply Forall_lookup. intros j r' Hj.
    apply (rules_well_placed sc (S j)).
    by rewrite <- lookup_tail.
Qed.

Lemma output_is_input_with_insertions_witness :
  rules Remix !! 3%nat
  = Some (Rule RemixIntegration.alternativePattern
            RemixIntegration.alternativeHook AfterMatch true)
  /\ patches
       (Rule RemixIntegration.alternativePattern
          RemixIntegration.alternativeHook AfterMatch true)
       (run_rules (take 3 (rules Remix)) fallback_only_document)
       (run_rules (take 4 (rules Remix)) fallback_only_document)
  /\ fallback_only_document `sublist_of` ruleSet Remix fallback_only_document.
Proof.
  split; [reflexivity|].
  destruct (output_is_input_with_insertions Remix fallback_only_document 3
              (Rule RemixIntegration.alternativePattern
                 RemixIntegration.alternativeHook AfterMatch true)
              eq_refl) as (H1 & H2 & _).
  split; [exact H1 | exact H2].
Defined.

(** ** C8: determinism *)

(** C8: two independent runs on the same non-empty input document give
    the same output.  Whatever else differs between the two worlds (the
    other files, an earlier destination file, what is already on the
    console), both runs write the same document, the rule set applied to
    the input, and print the same lines. *)
Theorem runs_are_deterministic
    (sc : script) (w1 w2 : World) (html : list N) :
  fs_readFileSync sourcePath w1 = Returns html ->
  fs_readFileSync sourcePath w2 = Returns html ->
  html <> [] ->
  write_faults w1 destPath = NoFault ->
  write_faults w2 destPath = NoFault ->
  files (integrateFarcade_of sc w1).2 !! destPath = Some (ruleSet sc html)
  /\ files (integrateFarcade_of sc w2).2 !! destPath
     = files (integrateFarcade_of sc w1).2 !! destPath
  /\ drop (length (console w2)) (console (integrateFarcade_of sc w2).2)
     = drop (length (console w1)) (console (integrateFarcade_of sc w1).2).
Proof.
  intros Hr1 Hr2 Hne Hw1 Hw2. rewrite integrateFarcade_of_unfold.
  destruct (run_success RemixIntegration.config (injectFarcadeSDK_of sc)
              (injectFarcadeGameLogic_of sc) w1 html Hr1 Hne Hw1)
    as (_ & Hf1 & Hc1).
  destruct (run_success RemixIntegration.config (injectFarcadeSDK_of sc)
              (injectFarcadeGameLogic_of sc) w2 html Hr2 Hne Hw2)
    as (_ & Hf2 & Hc2).
  rewrite Hf1, Hf2, Hc1, Hc2, !drop_app_length, !lookup_insert_eq.
  done.
Qed.

Lemma runs_are_deterministic_witness :
  fs_readFileSync sourcePath fresh_world = Returns plain_document
  /\ fs_readFileSync sourcePath used_world = Returns plain_document
  /\ plain_document <> []
  /\ write_faults fresh_world destPath = NoFault
  /\ write_faults used_world destPath = NoFault
  /\ files (integrateFarcade_of Remix used_world).2 !! destPath
     = files (integrateFarcade_of Remix fresh_world).2 !! destPath.
Proof.
  split; [vm_compute; reflexivity|].
  split; [vm_compute; reflexivity|].
  split; [discriminate|].
  split; [reflexivity|].
  split; [reflexivity|].
  destruct (runs_are_deterministic Remix fresh_world used_world
              plain_document)
    as (_ & H2 & _);
    [vm_compute; reflexivity | vm_compute; reflexivity | discriminate
    | reflexivity | reflexivity |].
  exact H2.
Defined.

(** ** C9: only the first occurrence is patched *)

(** C9, as stated, fails: a document that holds the game-over call and,
    twice, a text that the alternative anchor of remixIntegration.js
    matches comes out as it went in.  The alternative rule is behind
    the guard, the guard is closed, and no injection is made at any
    occurrence of the anchor. *)
Lemma guarded_rule_makes_no_injection_counterexample :
  rules Remix !! 3%nat
  = Some (Rule RemixIntegration.alternativePattern
            RemixIntegration.alternativeHook AfterMatch true)
  /\ exec RemixIntegration.alternativePattern handlerSetup
     = Some (Result [] handlerSetup [handlerSetup] [])
  /\ two_fallbacks_document
     = (gameOverCall ++ lit "(); ") ++ handlerSetup ++ lit " "
       ++ handlerSetup
  /\ test RemixIntegration.alternativePattern two_fallbacks_document = true
  /\ value (injectFarcadeGameLogic_of Remix two_fallbacks_document)
     = two_fallbacks_document
  /\ ruleSet Remix two_fallbacks_document = two_fallbacks_document.
Proof. by vm_compute. Qed.

(** C9, amended: every rule of both scripts is a [replace] call with a
    pattern that has no [g] flag, so it patches only the first
    occurrence of its anchor.  The output of a script is what the rules
    after rule [i] make of the document rule [i] leaves, and the SDK
    tag function is the first rule.  For every input document, whenever
    a rule is applied to the document [d] that reaches it and its
    anchor is found in [d] (once or more than once), it makes exactly
    one injection, in or next to the first match: [d] is
    [pre ++ m1 ++ m2 ++ post], the anchor matches [m1 ++ m2], no match
    of the anchor starts left of it, and the rule leaves
    [pre ++ m1 ++ hook ++ m2 ++ post]; every later occurrence, in
    [post], is left as it was.  A rule that is not behind the game-over
    guard is always applied; a guarded fallback is applied when [d]
    does not hold the game-over call, and makes no injection, whatever
    anchors [d] holds, when it does. *)
Theorem only_first_occurrence_patched
    (sc : script) (html : list N) (i : nat) (r : rule) (d : list N) :
  rules sc !! i = Some r ->
  run_rules (take i (rules sc)) html = d ->
  test (anchor r) d = true ->
  ruleSet sc html = run_rules (drop (S i) (rules sc)) (step d r)
  /\ value (injectFarcadeSDK_of sc html) = run_rules (take 1 (rules sc)) html
  /\ (guarded r = false \/ includes gameOverCall d = false ->
      exists pre m1 m2 post caps,
        d = pre ++ m1 ++ m2 ++ post
        /\ in_regex (anchor r) (m1 ++ m2) caps
        /\ (forall a u b caps',
              d = a ++ u ++ b -> in_regex (anchor r) u caps' ->
              (length pre <= length a)%nat)
        /\ step d r = pre ++ m1 ++ hook r ++ m2 ++ post)
  /\ (guarded r = true -> includes gameOverCall d = true -> step d r = d).
Proof.
  intros Hr Hd Ht. split; [|split; [apply sdk_table|split]].
  - rewrite ruleSet_table. unfold run_rules in *.
    rewrite <- (take_drop_middle (rules sc) i r Hr) at 1.
    rewrite foldl_app. cbn [foldl]. by rewrite Hd.
  - intros Hopen.
    assert (step d r = apply_rule r d) as ->.
    { unfold step. destruct Hopen as [-> | ->]; [done|].
      by rewrite andb_false_r. }
    apply apply_rule_shape; [|done]. by apply (rules_well_placed sc i).
  - intros Hg Hcall. unfold step. by rewrite Hg, Hcall.
Qed.

(** Two head-closing markers: the SDK script reference goes before the
    first one, the second one is left alone. *)
Lemma only_first_occurrence_patched_witness :
  rules Remix !! 0%nat
  = Some (Rule RemixIntegration.headPattern
            (RemixIntegration.farcadeScriptTag ++ [LF]) BeforeMatch false)
  /\ test RemixIntegration.headPattern two_heads_document = true
  /\ occurrences (lit "</head>") two_heads_document = 2%nat
  /\ value (injectFarcadeSDK_of Remix two_heads_document)
     = lit "<head>" ++ RemixIntegration.farcadeScriptTag ++ [LF]
       ++ lit "</head><body></head></body>"
  /\ exists pre m1 m2 post caps,
       two_heads_document = pre ++ m1 ++ m2 ++ post
       /\ in_regex RemixIntegration.headPattern (m1 ++ m2) caps
       /\ (forall a u b caps',
             two_heads_document = a ++ u ++ b ->
             in_regex RemixIntegration.headPattern u caps' ->
             (length pre <= length a)%nat)
       /\ step two_heads_document
            (Rule RemixIntegration.headPattern
               (RemixIntegration.farcadeScriptTag ++ [LF]) BeforeMatch false)
          = pre ++ m1 ++ (RemixIntegration.farcadeScriptTag ++ [LF])
            ++ m2 ++ post.
Proof.
  split; [reflexivity|].
  split; [vm_compute; reflexivity|].
  split; [vm_compute; reflexivity|].
  split; [vm_compute; reflexivity|].
  destruct (only_first_occurrence_patched Remix two_heads_document 0
              (Rule RemixIntegration.headPattern
                 (RemixIntegration.farcadeScriptTag ++ [LF]) BeforeMatch false)
              two_heads_document) as (_ & _ & Hshape & _);
    [reflexivity | reflexivity | vm_compute; reflexivity |].
  apply Hshape. by left.
Defined.

(** ** C10: the guard looks at the whole document *)

(** C10: for every input document that already contains the text
    [window.FarcadeSDK.singlePlayer.actions.gameOver], no guarded
    (fallback) game-over rule fires, whatever anchors are present: the
    behaviour rules do what the unguarded rules alone do, and print
    nothing about a fallback.  The text also survives the SDK tag rule,
    so the same holds for a document that comes through it. *)
Theorem guard_sees_whole_document (sc : script) (html : list N) :
  includes gameOverCall html = true ->
  injectFarcadeGameLogic_of sc html
  = Said
      (run_rules (filter (fun r => guarded r = false) (tail (rules sc))) html)
      [(LOG, "Injecting Farcade SDK game logic...")]
  /\ includes gameOverCall (value (injectFarcadeSDK_of sc html)) = true.
Proof.
  intros Hcall. split.
  - destruct sc; cbn [injectFarcadeGameLogic_of].
    + by rewrite remix_guarded.
    + by rewrite farcade_guarded.
  - apply occurrences_pos. rewrite sdk_keeps_call_count.
    by apply occurrences_pos.
Qed.

Lemma guard_sees_whole_document_witness :
  includes gameOverCall already_patched_document = true
  /\ injectFarcadeGameLogic_of Remix already_patched_document
     = Said already_patched_document
         [(LOG, "Injecting Farcade SDK game logic...")].
Proof.
  split; [vm_compute; reflexivity|].
  destruct (guard_sees_whole_document Remix already_patched_document)
    as [-> _]; [vm_compute; reflexivity|].
  vm_compute. reflexivity.
Defined.

(** * Further properties of the scripts *)

(** ** The run, in every world *)

Section RunFrame.
Variable config : Config.
Variables sdk logic : list N -> Console (list N).

(** The run returns normally in every world, and no file other than
    the destination is created, changed or removed. *)
Lemma run_frame w path :
  path <> outputFile config ->
  (integrateFarcade config sdk logic w).1 = Returns tt
  /\ files (integrateFarcade config sdk logic w).2 !! path = files w !! path.
Proof.
  intros Hpath. unfold integrateFarcade, readFile.
  rewrite fs_readFileSync_say.
  destruct (fs_readFileSync (indexTemplate config) w) as [html|];
    [|done].
  destruct html as [|c html]; [done|].
  cbn [falsy default]. unfold writeFile, fs_writeFileSync.
  cbn [write_faults says say].
  destruct (write_faults w (outputFile config)) as [| |n];
    cbn [fst snd files store says say]; (split; [done|]);
    [by rewrite lookup_insert_ne | done | by rewrite lookup_insert_ne].
Qed.

Lemma run_empty_source w :
  fs_readFileSync (indexTemplate config) w = Returns [] ->
  integrateFarcade config sdk logic w
  = (Returns tt,
     says [ (LOG, "Starting AESOPNE Farcade integration process...");
            (ERROR, "Could not read HTML template. Aborting.") ] w).
Proof.
  intros Hread. unfold integrateFarcade, readFile.
  rewrite fs_readFileSync_say, Hread. cbn [falsy]. unfold says, say.
  cbn [files read_denied write_faults console].
  by rewrite <- app_assoc.
Qed.

End RunFrame.

(** ** More about occurrences *)

Section Crossing.
Implicit Types (n a b h : list N) (c : N).

(** A text that holds [c] at most as its last character cannot be read
    across a [c]. *)
Lemma is_prefix_after n a c b :
  existsb (N.eqb c) (removelast n) = false ->
  n <> [] ->
  is_prefix n (a ++ c :: b) = is_prefix n (a ++ [c]).
Proof.
  revert a. induction n as [|x n IH]; intros a Hc Hn; [done|].
  destruct n as [|y n].
  - destruct a as [|z a]; simpl; [done|].
    by destruct (x =? z).
  - change (removelast (x :: y :: n)) with (x :: removelast (y :: n)) in Hc.
    cbn [existsb] in Hc. apply orb_false_iff in Hc as [Hx Hc].
    destruct a as [|z a].
    + change (is_prefix (x :: y :: n) ([] ++ c :: b))
        with ((x =? c) && is_prefix (y :: n) b).
      change (is_prefix (x :: y :: n) ([] ++ [c]))
        with ((x =? c) && is_prefix (y :: n) []).
      by rewrite N.eqb_sym, Hx.
    + change (is_prefix (x :: y :: n) ((z :: a) ++ c :: b))
        with ((x =? z) && is_prefix (y :: n) (a ++ c :: b)).
      change (is_prefix (x :: y :: n) ((z :: a) ++ [c]))
        with ((x =? z) && is_prefix (y :: n) (a ++ [c])).
      by rewrite IH.
Qed.

Lemma occurrences_after n a c b :
  existsb (N.eqb c) (removelast n) = false ->
  n <> [] ->
  occurrences n (a ++ c :: b)
  = (occurrences n (a ++ [c]) + occurrences n b)%nat.
Proof.
  intros Hc Hn. induction a as [|x a IH].
  - cbn [app occurrences].
    pose proof (is_prefix_after n [] c b Hc Hn) as E. cbn [app] in E.
    rewrite E. destruct n; [done|]. simpl. lia.
  - change ((x :: a) ++ c :: b) with (x :: (a ++ c :: b)).
    change ((x :: a) ++ [c]) with (x :: (a ++ [c])).
    cbn [occurrences]. rewrite IH.
    pose proof (is_prefix_after n (x :: a) c b Hc Hn) as E.
    cbn [app] in E. rewrite E. lia.
Qed.

(** Inserting a text that starts and ends with characters foreign to
    [n], right after a character that [n] holds at most as its last
    one, adds the occurrences of the inserted text and nothing else. *)
Lemma occurrences_insert_after n a c1 c0 h c2 b :
  n <> [] ->
  existsb (N.eqb c1) (removelast n) = false -> c0 ∉ n -> c2 ∉ n ->
  occurrences n ((a ++ [c1]) ++ (c0 :: h ++ [c2]) ++ b)
  = (occurrences n ((a ++ [c1]) ++ b)
     + occurrences n (c0 :: h ++ [c2]))%nat.
Proof.
  intros Hn H1 H0 H2.
  rewrite <- !(assoc_L (++) a). cbn [app].
  rewrite (occurrences_after n a c1 b) by done.
  rewrite (occurrences_after n a c1) by done.
  change (c0 :: (h ++ [c2]) ++ b) with ([] ++ c0 :: ((h ++ [c2]) ++ b)).
  change (c0 :: h ++ [c2]) with ([] ++ c0 :: (h ++ [c2])).
  rewrite !(occurrences_sep n [] c0) by done.
  rewrite <- (assoc_L (++) h). cbn [app].
  rewrite !(occurrences_sep n h c2) by done.
  rewrite !occurrences_nil by done. lia.
Qed.

(** [p] is where [l] first occurs in [p ++ l ++ q] exactly when [l]
    does not occur in [p] followed by [l] without its last
    character. *)
Lemma first_occurrence_spec (l p q : list N) :
  l <> [] ->
  includes l (p ++ removelast l) = false ->
  forall a b, p ++ l ++ q = a ++ l ++ b -> (length p <= length a)%nat.
Proof.
  intros Hl Hnone a b E.
  destruct (decide (length p <= length a)%nat) as [|Hlt]; [done|].
  exfalso. apply not_true_iff_false in Hnone. apply Hnone.
  apply includes_spec.
  apply app_eq_inv in E as [(k & Hp & Hk) | (k & Ha & _)];
    [|rewrite Ha, length_app in Hlt; lia].
  assert (k <> []) as Hk0.
  { intros ->. rewrite app_nil_r in Hp. subst p. lia. }
  (* [l ++ b = k ++ l ++ q] with [k] not empty: [l] ends inside
     [k ++ removelast l] *)
  assert (exists t, k ++ removelast l = l ++ t) as [t Ht].
  { destruct (last l) as [x|] eqn:Ex; [|by apply last_None in Ex].
    apply last_Some in Ex as [l' ->]. rewrite removelast_last.
    rewrite <- !app_assoc in Hk.
    assert (length (l' ++ [x]) <= length (k ++ l'))%nat as Hlen.
    { rewrite !length_app. simpl. destruct k; [done|simpl; lia]. }
    exists (drop (length (l' ++ [x])) (k ++ l')).
    rewrite <- (take_drop (length (l' ++ [x])) (k ++ l')) at 1.
    f_equal.
    assert (take (length (l' ++ [x])) ((l' ++ [x]) ++ b) = l' ++ [x]) as E1
      by apply take_app_length.
    rewrite <- app_assoc in E1. rewrite Hk in E1.
    rewrite (app_assoc k l') in E1. rewrite take_app_le in E1 by done.
    done. }
  exists a, t. rewrite Hp, <- !app_assoc. f_equal.
  by rewrite Ht.
Qed.

End Crossing.

(** ** Counting a text through the behaviour rules *)

Section Counting.
Implicit Types (n s d hook : list N) (r : rule).

Lemma replace_between_shape b1 b2 hook s :
  test [Capture b1; Capture b2] s = true ->
  exists pre g1 g2 post,
    s = pre ++ g1 ++ g2 ++ post
    /\ in_atoms b1 g1 /\ in_atoms b2 g2
    /\ replace [Capture b1; Capture b2] (between hook) s
       = pre ++ g1 ++ hook ++ g2 ++ post.
Proof.
  intros (res & Hex & ->)%(replace_present _ (between hook)).
  apply exec_sound in Hex as (Hs & Hin & _).
  destruct Hin as (g1 & rest & caps' & Hm & Hg1 & Hc & g2 & rest' & caps''
                   & -> & Hg2 & -> & -> & ->).
  rewrite app_nil_r in Hm.
  exists (before res), g1, g2, (after res).
  split; [by rewrite Hs, Hm, <- app_assoc|]. split; [done|]. split; [done|].
  unfold between. rewrite Hc. cbn [lookup_total list_lookup_total].
  by rewrite <- !app_assoc.
Qed.

Lemma hook_proof_spec n :
  hook_proof n = true ->
  n <> [] /\ existsb (N.eqb 59) (removelast n) = false
  /\ (10 ∉ n) /\ (125 ∉ n).
Proof.
  unfold hook_proof. rewrite !andb_true_iff, !negb_true_iff.
  intros [[[H59 H10] H125] Hlen].
  split; [intros ->; done|]. split; [done|].
  split; by apply not_elem_of_existsb.
Qed.

Lemma tidy_hook r :
  tidy r = true -> exists h, hook r = 10 :: h ++ [125].
Proof.
  unfold tidy. rewrite !andb_true_iff, !bool_decide_eq_true.
  intros [[[_ Hhead] Hlast] Hlen%Nat.leb_le].
  apply last_Some in Hlast as [h' Hh]. rewrite Hh in Hhead, Hlen.
  destruct h' as [|x h']; [simpl in Hlen; lia|].
  injection Hhead as ->. by exists h'.
Qed.

(** What an injection after a [;] does to the occurrences of a
    [hook_proof] text. *)
Lemma count_insertion n a h b :
  hook_proof n = true ->
  occurrences n ((a ++ [59]) ++ (10 :: h ++ [125]) ++ b)
  = Nat.add (occurrences n ((a ++ [59]) ++ b))
            (occurrences n (10 :: h ++ [125])).
Proof.
  intros (Hn & H59 & H10 & H125)%hook_proof_spec.
  by apply occurrences_insert_after.
Qed.

(** A rule adds to the occurrences of a [hook_proof] text those of its
    hook when its anchor is found, and nothing otherwise. *)
Lemma apply_rule_count n r d :
  tidy r = true -> hook_proof n = true ->
  occurrences n (apply_rule r d)
  = (occurrences n d
     + if test (anchor r) d then occurrences n (hook r) else 0)%nat.
Proof.
  intros Htidy Hn. destruct (tidy_hook r Htidy) as [h Hh].
  destruct (test (anchor r) d) eqn:Et;
    [|unfold apply_rule; rewrite replace_absent by done; lia].
  unfold tidy in Htidy. rewrite !andb_true_iff in Htidy.
  destruct Htidy as [[[Hcut%bool_decide_eq_true _] _] _].
  unfold cut_char in Hcut. unfold apply_rule, replacer.
  destruct (where_ r); [done| |].
  - destruct (anchor r) as [|[a|body] [|? ?]] eqn:Ea; try done.
    destruct (final_literal body) as [l|] eqn:El; [|done].
    apply (replace_appending _ (hook r)) in Et
      as (pre & m & post & caps & -> & Hin & _ & ->).
    apply in_regex_capture in Hin as [Hin _].
    pose proof (in_atoms_final _ _ _ El Hin) as [m' ->].
    apply last_Some in Hcut as [l' ->]. rewrite Hh.
    pose proof (count_insertion n (pre ++ m' ++ l') h post Hn) as E.
    rewrite <- !app_assoc in E. rewrite <- !app_assoc. exact E.
  - destruct (anchor r) as [|[a|b1] [|[a2|b2] [|? ?]]] eqn:Ea; try done.
    destruct (final_literal b1) as [l|] eqn:El; [|done].
    apply (replace_between_shape _ _ (hook r)) in Et
      as (pre & g1 & g2 & post & -> & Hg1 & _ & ->).
    pose proof (in_atoms_final _ _ _ El Hg1) as [m' ->].
    apply last_Some in Hcut as [l' ->]. rewrite Hh.
    pose proof (count_insertion n (pre ++ m' ++ l') h (g2 ++ post) Hn) as E.
    rewrite <- !app_assoc in E. rewrite <- !app_assoc. exact E.
Qed.

Lemma step_count n r d :
  tidy r = true -> hook_proof n = true ->
  occurrences n (step d r)
  = (occurrences n d + if fires r d then occurrences n (hook r) else 0)%nat.
Proof.
  intros Htidy Hn. unfold step, fires.
  destruct (guarded r && includes gameOverCall d); cbn [negb andb]; [lia|].
  by apply apply_rule_count.
Qed.

(** Rules whose hooks do not hold [n] leave its occurrences as they
    are. *)
Lemma run_rules_silent n rs d :
  hook_proof n = true ->
  Forall (fun r => tidy r = true /\ occurrences n (hook r) = 0%nat) rs ->
  occurrences n (run_rules rs d) = occurrences n d.
Proof.
  intros Hn. revert d. unfold run_rules.
  induction rs as [|r rs IH]; intros d; [done|].
  intros [[Ht H0] Hrs]%Forall_cons. cbn [foldl].
  rewrite IH by done. rewrite step_count by done. rewrite H0.
  destruct (fires r d); lia.
Qed.

Lemma behaviour_rules_tidy sc : Forall (fun r => tidy r = true) (tail (rules sc)).
Proof. destruct sc; repeat constructor. Qed.

End Counting.

(** ** The chain of game-over rules *)

Section Chain.
Implicit Types (r : rule) (d : list N) (rs : list rule).

Lemma run_rules_app rs1 rs2 d :
  run_rules (rs1 ++ rs2) d = run_rules rs2 (run_rules rs1 d).
Proof. unfold run_rules. apply foldl_app. Qed.

Lemma run_rules_cons r rs d : run_rules (r :: rs) d = run_rules rs (step d r).
Proof. reflexivity. Qed.

Lemma apply_rule_absent r d : test (anchor r) d = false -> apply_rule r d = d.
Proof. unfold apply_rule. apply replace_absent. Qed.

Lemma step_open r d :
  guarded r = false \/ includes gameOverCall d = false ->
  step d r = apply_rule r d.
Proof.
  unfold step. intros [-> | ->]; [done|]. by rewrite andb_false_r.
Qed.

Lemma guarded_skipped rs d :
  Forall (fun r => guarded r = true) rs ->
  includes gameOverCall d = true -> run_rules rs d = d.
Proof.
  intros Hg Hd. induction rs as [|r rs IH]; [done|].
  apply Forall_cons in Hg as [Hr Hrs]. rewrite run_rules_cons.
  unfold step. rewrite Hr, Hd. cbn [andb]. by apply IH.
Qed.

Lemma loud_count r d :
  loud r ->
  occurrences gameOverCall (apply_rule r d)
  = (occurrences gameOverCall d + if test (anchor r) d then 1 else 0)%nat.
Proof.
  intros [Ht H1]. rewrite apply_rule_count by done. by rewrite H1.
Qed.

Lemma loud_closes_guard r d :
  loud r -> test (anchor r) d = true ->
  includes gameOverCall (apply_rule r d) = true.
Proof.
  intros Hl Ht. apply occurrences_pos. rewrite loud_count by done.
  rewrite Ht. lia.
Qed.

(** Without the call in the document, a chain of loud rules whose
    fallbacks are guarded applies its first rule whose anchor is
    found, and no other. *)
Lemma chain_first_found r rest d :
  Forall loud (r :: rest) ->
  Forall (fun r => guarded r = true) rest ->
  includes gameOverCall d = false ->
  run_rules (r :: rest) d = first_found (r :: rest) d.
Proof.
  revert r d. induction rest as [|r' rest IH]; intros r d Hl Hg Hd.
  - rewrite run_rules_cons, step_open by by right.
    cbn [first_found run_rules foldl].
    destruct (test (anchor r) d) eqn:Et; [done|].
    by apply apply_rule_absent.
  - rewrite run_rules_cons, step_open by by right.
    apply Forall_cons in Hl as [Hr Hl].
    change (first_found (r :: r' :: rest) d)
      with (if test (anchor r) d then apply_rule r d
            else first_found (r' :: rest) d).
    destruct (test (anchor r) d) eqn:Et.
    + apply guarded_skipped; [done|]. by apply loud_closes_guard.
    + rewrite apply_rule_absent by done.
      apply Forall_cons in Hg as [_ Hg]. by apply IH.
Qed.

Lemma first_found_count rs d :
  Forall loud rs ->
  occurrences gameOverCall (first_found rs d)
  = (occurrences gameOverCall d
     + if existsb (fun r => test (anchor r) d) rs then 1 else 0)%nat.
Proof.
  induction rs as [|r rs IH]; intros Hl; [simpl; lia|].
  apply Forall_cons in Hl as [Hr Hl]. cbn [first_found existsb].
  destruct (test (anchor r) d) eqn:Et; cbn [orb].
  - rewrite loud_count by done. by rewrite Et.
  - by apply IH.
Qed.

(** The behaviour rules of a script: the ready rule, the primary
    game-over rule, its guarded fallbacks, the event-handler rule. *)
Lemma behaviour_rules sc :
  exists p fallbacks,
    tail (rules sc)
    = readyRule sc :: gameOverRules sc ++ [eventHandlersRule sc]
    /\ gameOverRules sc = p :: fallbacks
    /\ anchor p = primaryAnchor sc
    /\ guarded p = false
    /\ Forall loud (p :: fallbacks)
    /\ Forall (fun r => guarded r = true) fallbacks.
Proof.
  destruct sc; eexists _, _;
    (split; [reflexivity|]); (split; [reflexivity|]);
    (split; [reflexivity|]); (split; [reflexivity|]);
    split; repeat constructor.
Qed.

Lemma game_logic_stages sc html :
  value (injectFarcadeGameLogic_of sc html)
  = apply_rule (eventHandlersRule sc)
      (run_rules (gameOverRules sc) (apply_rule (readyRule sc) html)).
Proof.
  rewrite game_logic_table.
  destruct (behaviour_rules sc) as (p & fb & -> & _).
  rewrite run_rules_cons, run_rules_app.
  rewrite (step_open (readyRule sc)) by (left; by destruct sc).
  cbn [run_rules foldl].
  apply step_open. left. by destruct sc.
Qed.

Lemma ready_rule_count n sc html :
  hook_proof n = true ->
  occurrences n (apply_rule (readyRule sc) html)
  = (occurrences n html
     + if test (anchor (readyRule sc)) html
       then occurrences n (hook (readyRule sc)) else 0)%nat.
Proof. intros Hn. apply apply_rule_count; [by destruct sc | done]. Qed.

Lemma event_rule_count n sc d :
  hook_proof n = true ->
  occurrences n (apply_rule (eventHandlersRule sc) d)
  = (occurrences n d
     + if test (anchor (eventHandlersRule sc)) d
       then occurrences n (hook (eventHandlersRule sc)) else 0)%nat.
Proof. intros Hn. apply apply_rule_count; [by destruct sc | done]. Qed.

Lemma ready_keeps_call sc html :
  occurrences gameOverCall (apply_rule (readyRule sc) html)
  = occurrences gameOverCall html.
Proof.
  rewrite ready_rule_count by reflexivity.
  assert (occurrences gameOverCall (hook (readyRule sc)) = 0%nat) as ->
    by by destruct sc.
  destruct (test _ html); lia.
Qed.

Lemma events_keep_call sc d :
  occurrences gameOverCall (apply_rule (eventHandlersRule sc) d)
  = occurrences gameOverCall d.
Proof.
  rewrite event_rule_count by reflexivity.
  assert (occurrences gameOverCall (hook (eventHandlersRule sc)) = 0%nat)
    as -> by by destruct sc.
  destruct (test _ d); lia.
Qed.

End Chain.

(** ** What the behaviour rules add *)

(** X1: when the input does not hold the game-over call, the game-over
    rules of a script act as one rule: the first of them, in the order
    of the script, whose anchor is found in the document the ready rule
    made is applied to it, and no other; the event-handler rule then
    runs on the result, as it does when no anchor was found. *)
Theorem game_over_rules_first_found (sc : script) (html : list N) :
  includes gameOverCall html = false ->
  value (injectFarcadeGameLogic_of sc html)
  = apply_rule (eventHandlersRule sc)
      (first_found (gameOverRules sc) (apply_rule (readyRule sc) html)).
Proof.
  intros Hnone. rewrite game_logic_stages. f_equal.
  destruct (behaviour_rules sc) as (p & fb & _ & -> & _ & _ & Hl & Hg).
  apply chain_first_found; [done|done|].
  apply occurrences_zero. rewrite ready_keeps_call.
  by apply occurrences_zero.
Qed.

Lemma game_over_rules_first_found_witness :
  includes gameOverCall fallback_only_document = false
  /\ value (injectFarcadeGameLogic_of Remix fallback_only_document)
     = apply_rule (eventHandlersRule Remix)
         (first_found (gameOverRules Remix)
            (apply_rule (readyRule Remix) fallback_only_document)).
Proof.
  split; [vm_compute; reflexivity|].
  apply (game_over_rules_first_found Remix fallback_only_document).
  vm_compute; reflexivity.
Defined.

Lemma call_count_formula sc html :
  occurrences gameOverCall (value (injectFarcadeGameLogic_of sc html))
  = (occurrences gameOverCall html
     + if test (primaryAnchor sc) (apply_rule (readyRule sc) html) then 1
       else if includes gameOverCall html then 0
       else if existsb
                 (fun r => test (anchor r) (apply_rule (readyRule sc) html))
                 (gameOverRules sc)
            then 1 else 0)%nat.
Proof.
  rewrite game_logic_stages, events_keep_call.
  set (d1 := apply_rule (readyRule sc) html).
  pose proof (ready_keeps_call sc html) as Hd1. fold d1 in Hd1.
  destruct (behaviour_rules sc)
    as (p & fb & _ & -> & Hp & Hpg & Hl & Hg).
  rewrite <- Hp.
  destruct (includes gameOverCall html) eqn:Ei.
  - rewrite run_rules_cons, step_open by by left.
    apply Forall_cons in Hl as [Hpl _].
    rewrite guarded_skipped; [| done |].
    + rewrite loud_count by done. by rewrite Hd1.
    + apply occurrences_pos. rewrite loud_count by done.
      apply occurrences_pos in Ei. lia.
  - rewrite chain_first_found; [|done|done|].
    + rewrite first_found_count by done. rewrite Hd1.
      cbn [existsb]. by destruct (test (anchor p) d1).
    + apply occurrences_zero. rewrite Hd1. by apply occurrences_zero.
Qed.

(** X2: for every input document, the behaviour rules add the game-over
    call at most once, and the text says when: once when the primary
    anchor is found in the document the ready rule made, whether or
    not the input already holds the call (the primary rule is not
    behind the guard); otherwise not at all when the input holds the
    call, and once when it does not and the anchor of some fallback is
    found.  No occurrence is ever removed, and the SDK tag rule adds
    none: the whole rule set adds the call at most once too. *)
Theorem game_over_call_added_at_most_once (sc : script) (html : list N) :
  occurrences gameOverCall (value (injectFarcadeGameLogic_of sc html))
  = (occurrences gameOverCall html
     + if test (primaryAnchor sc) (apply_rule (readyRule sc) html) then 1
       else if includes gameOverCall html then 0
       else if existsb
                 (fun r => test (anchor r) (apply_rule (readyRule sc) html))
                 (gameOverRules sc)
            then 1 else 0)%nat
  /\ (occurrences gameOverCall html
      <= occurrences gameOverCall (value (injectFarcadeGameLogic_of sc html))
      <= S (occurrences gameOverCall html))%nat
  /\ (occurrences gameOverCall html
      <= occurrences gameOverCall (ruleSet sc html)
      <= S (occurrences gameOverCall html))%nat.
Proof.
  split; [apply call_count_formula|]. split.
  - rewrite call_count_formula.
    repeat match goal with |- context [if ?b then _ else _] => destruct b end;
      lia.
  - unfold ruleSet. rewrite call_count_formula, sdk_keeps_call_count.
    repeat match goal with |- context [if ?b then _ else _] => destruct b end;
      lia.
Qed.

Section Silent.
Implicit Types (n d : list N) (rs : list rule).

Lemma game_over_rules_silent n sc d :
  hook_proof n = true ->
  Forall (fun r => occurrences n (hook r) = 0%nat) (gameOverRules sc) ->
  occurrences n (run_rules (gameOverRules sc) d) = occurrences n d.
Proof.
  intros Hn H0. apply run_rules_silent; [done|].
  destruct (behaviour_rules sc) as (p & fb & _ & E & _ & _ & Hl & _).
  rewrite E in H0 |- *. revert H0. generalize (p :: fb) Hl.
  intros rs Hrs. induction Hrs as [|r rs [Hr _] _ IH]; [done|].
  intros [H0 Hrest]%Forall_cons. constructor; [done|]. by apply IH.
Qed.

Lemma test_capture_literal l s : test [Capture [Lit l]] s = includes l s.
Proof.
  apply eq_true_iff_eq. rewrite test_spec, includes_spec. split.
  - intros (a & u & b & caps & -> & [Hu _]%in_regex_capture).
    destruct Hu as (v & r & -> & Hv & Hr). simpl in Hv, Hr. subst v r.
    rewrite app_nil_r. by exists a, b.
  - intros (a & b & ->). exists a, l, b, [l]. split; [done|].
    apply in_regex_capture. split; [|done].
    exists l, []. by rewrite app_nil_r.
Qed.

End Silent.

(** X3: for every input document, the behaviour rules add the ready
    call once when the title-screen anchor is found in the input, and
    not at all otherwise: no other rule adds, removes or breaks an
    occurrence of it. *)
Theorem ready_call_added_with_anchor (sc : script) (html : list N) :
  occurrences readyCall (value (injectFarcadeGameLogic_of sc html))
  = (occurrences readyCall html
     + if test (anchor (readyRule sc)) html then 1 else 0)%nat.
Proof.
  rewrite game_logic_stages.
  rewrite event_rule_count by reflexivity.
  assert (occurrences readyCall (hook (eventHandlersRule sc)) = 0%nat) as ->
    by by destruct sc.
  rewrite game_over_rules_silent;
    [|reflexivity|destruct sc; by repeat constructor].
  rewrite ready_rule_count by reflexivity.
  assert (occurrences readyCall (hook (readyRule sc)) = 1%nat) as ->
    by by destruct sc.
  destruct (test (anchor (eventHandlersRule sc)) _); lia.
Qed.

(** X4: for every input document, the behaviour rules subscribe to
    [play_again] and to [toggle_mute] once when the input holds the
    engine-construction statement, and not at all otherwise: the hooks
    of the rules that run before neither make nor break an occurrence
    of the statement. *)
Theorem event_handlers_added_with_engine_statement
    (sc : script) (html : list N) :
  occurrences playAgainHandler (value (injectFarcadeGameLogic_of sc html))
  = (occurrences playAgainHandler html
     + if includes engineStatement html then 1 else 0)%nat
  /\ occurrences toggleMuteHandler (value (injectFarcadeGameLogic_of sc html))
     = (occurrences toggleMuteHandler html
        + if includes engineStatement html then 1 else 0)%nat.
Proof.
  assert (forall n, hook_proof n = true ->
            occurrences n (hook (readyRule sc)) = 0%nat ->
            Forall (fun r => occurrences n (hook r) = 0%nat)
              (gameOverRules sc) ->
            occurrences n
              (run_rules (gameOverRules sc) (apply_rule (readyRule sc) html))
            = occurrences n html) as Hkeep.
  { intros n Hn Hr Hg. rewrite game_over_rules_silent by done.
    rewrite ready_rule_count by done. rewrite Hr.
    destruct (test _ html); lia. }
  assert (test (anchor (eventHandlersRule sc))
            (run_rules (gameOverRules sc) (apply_rule (readyRule sc) html))
          = includes engineStatement html) as Hfound.
  { assert (anchor (eventHandlersRule sc) = [Capture [Lit engineStatement]])
      as -> by by destruct sc.
    rewrite test_capture_literal. apply eq_true_iff_eq.
    rewrite <- !occurrences_pos, Hkeep; [done|reflexivity|by destruct sc|].
    destruct sc; by repeat constructor. }
  rewrite game_logic_stages. split.
  - rewrite event_rule_count by reflexivity. rewrite Hfound.
    rewrite Hkeep;
      [|reflexivity|by destruct sc|destruct sc; by repeat constructor].
    assert (occurrences playAgainHandler (hook (eventHandlersRule sc))
            = 1%nat) as -> by by destruct sc.
    done.
  - rewrite event_rule_count by reflexivity. rewrite Hfound.
    rewrite Hkeep;
      [|reflexivity|by destruct sc|destruct sc; by repeat constructor].
    assert (occurrences toggleMuteHandler (hook (eventHandlersRule sc))
            = 1%nat) as -> by by destruct sc.
    done.
Qed.

(** ** What the behaviour rules print *)

Section Notices.

Lemma remix_transcript html :
  transcript (RemixIntegration.injectFarcadeGameLogic html)
  = let d1 := apply_rule (readyRule Remix) html in
    let d2 := run_rules (take 1 (gameOverRules Remix)) d1 in
    let d3 := run_rules (take 2 (gameOverRules Remix)) d1 in
    (LOG, "Injecting Farcade SDK game logic...")
    :: (if includes gameOverCall d2 then []
        else [(LOG, "Primary gameOver pattern not found, trying alternative pattern...")])
    ++ (if includes gameOverCall d3 then []
        else [(LOG, "Alternative pattern not found, trying end-of-method pattern...")]).
Proof.
  unfold RemixIntegration.injectFarcadeGameLogic.
  cbv [mbind mret Console_bind Console_ret console_log]. cbv zeta.
  unfold run_rules, step, apply_rule, replacer.
  cbn [gameOverRules rules length Nat.sub take drop foldl
       readyRule anchor hook where_ guarded andb].
  destruct (includes gameOverCall
              (replace RemixIntegration.gameOverScreenPattern _ _)) eqn:E1;
    cbn [negb value transcript app].
  - rewrite E1. reflexivity.
  - destruct (includes gameOverCall
                (replace RemixIntegration.alternativePattern _ _));
      reflexivity.
Qed.

Lemma farcade_transcript html :
  transcript (FarcadeIntegration.injectFarcadeGameLogic html)
  = let d1 := apply_rule (readyRule Farcade) html in
    let d2 := run_rules (take 1 (gameOverRules Farcade)) d1 in
    (LOG, "Injecting Farcade SDK game logic...")
    :: (if includes gameOverCall d2 then []
        else [(LOG, "Primary gameOver pattern not found, trying fallback pattern...")]).
Proof.
  unfold FarcadeIntegration.injectFarcadeGameLogic.
  cbv [mbind mret Console_bind Console_ret console_log]. cbv zeta.
  unfold run_rules, step, apply_rule, replacer.
  cbn [gameOverRules rules length Nat.sub take drop foldl
       readyRule anchor hook where_ guarded andb].
  destruct (includes gameOverCall
              (replace FarcadeIntegration.gameOverScreenPattern _ _));
    reflexivity.
Qed.

(** The call is in the document a chain of loud rules made exactly
    when it was there before or some anchor was found. *)
Lemma chain_guard r rest d :
  Forall loud (r :: rest) ->
  Forall (fun r => guarded r = true) rest ->
  includes gameOverCall d = false ->
  includes gameOverCall (run_rules (r :: rest) d)
  = negb (leading_misses (r :: rest) d =? length (r :: rest))%nat.
Proof.
  intros Hl Hg Hd. rewrite chain_first_found by done.
  clear Hg. revert Hl. generalize (r :: rest). clear r rest.
  intros rs Hl. induction Hl as [|r rs Hr Hl IH].
  - simpl. done.
  - cbn [first_found leading_misses length].
    destruct (test (anchor r) d) eqn:Et.
    + by apply loud_closes_guard.
    + rewrite IH. done.
Qed.

End Notices.

Lemma run_rules_keeps n rs d :
  hook_proof n = true -> Forall (fun r => tidy r = true) rs ->
  (occurrences n d <= occurrences n (run_rules rs d))%nat.
Proof.
  intros Hn Hrs. revert d.
  induction Hrs as [|r rs Hr _ IH]; intros d; [done|].
  rewrite run_rules_cons. etrans; [|apply IH].
  rewrite step_count by done. lia.
Qed.

(** X5: what the behaviour rules print.  After the line that announces
    them, a script prints the notice of a fallback exactly when it
    tries that fallback.  When the input holds the game-over call it
    prints no notice.  When it does not, the notices printed are the
    first [k] of the script, [k] being the number of game-over anchors,
    in the order of the script, that are not found before the first
    one that is: none when the primary anchor is found, all of them
    when no anchor is.  Nothing is printed for the ready rule or the
    event-handler rule, found or not. *)
Theorem fallback_notices_count_the_misses (sc : script) (html : list N) :
  transcript (injectFarcadeGameLogic_of sc html)
  = (LOG, "Injecting Farcade SDK game logic...")
    :: map (pair LOG)
         (if includes gameOverCall html then []
          else take (leading_misses (gameOverRules sc)
                       (apply_rule (readyRule sc) html))
                 (fallbackNotices sc)).
Proof.
  pose proof (ready_keeps_call sc html) as Hd1.
  destruct (includes gameOverCall html) eqn:Ei.
  - assert (forall k,
              includes gameOverCall
                (run_rules (take k (gameOverRules sc))
                   (apply_rule (readyRule sc) html)) = true) as Hkept.
    { intros k. apply occurrences_pos.
      eapply Nat.lt_le_trans; [|apply run_rules_keeps; [reflexivity|]].
      - rewrite Hd1. by apply occurrences_pos.
      - apply Forall_take.
        destruct (behaviour_rules sc) as (p & fb & _ & -> & _ & _ & Hl & _).
        eapply Forall_impl; [exact Hl|]. by intros r [Hr _]. }
    destruct sc; cbn [injectFarcadeGameLogic_of].
    + rewrite remix_transcript. cbv zeta. by rewrite !Hkept.
    + rewrite farcade_transcript. cbv zeta. by rewrite !Hkept.
  - assert (includes gameOverCall (apply_rule (readyRule sc) html) = false)
      as Hnone.
    { apply occurrences_zero. rewrite Hd1. by apply occurrences_zero. }
    destruct sc; cbn [injectFarcadeGameLogic_of].
    + rewrite remix_transcript. cbv zeta.
      set (d1 := apply_rule (readyRule Remix) html) in *.
      change (take 1 (gameOverRules Remix))
        with [Rule RemixIntegration.gameOverScreenPattern
                RemixIntegration.gameOverHook AfterMatch false].
      change (take 2 (gameOverRules Remix))
        with [Rule RemixIntegration.gameOverScreenPattern
                RemixIntegration.gameOverHook AfterMatch false;
              Rule RemixIntegration.alternativePattern
                RemixIntegration.alternativeHook AfterMatch true].
      rewrite !chain_guard; [|by repeat constructor..].
      change (gameOverRules Remix)
        with [Rule RemixIntegration.gameOverScreenPattern
                RemixIntegration.gameOverHook AfterMatch false;
              Rule RemixIntegration.alternativePattern
                RemixIntegration.alternativeHook AfterMatch true;
              Rule RemixIntegration.endOfMethodPattern
                RemixIntegration.endOfMethodHook BetweenGroups true].
      cbn [leading_misses anchor length fallbackNotices].
      destruct (test RemixIntegration.gameOverScreenPattern d1);
        [reflexivity|].
      destruct (test RemixIntegration.alternativePattern d1);
        [reflexivity|].
      destruct (test RemixIntegration.endOfMethodPattern d1); reflexivity.
    + rewrite farcade_transcript. cbv zeta.
      set (d1 := apply_rule (readyRule Farcade) html) in *.
      change (take 1 (gameOverRules Farcade))
        with [Rule FarcadeIntegration.gameOverScreenPattern
                FarcadeIntegration.gameOverHook AfterMatch false].
      rewrite !chain_guard; [|by repeat constructor..].
      change (gameOverRules Farcade)
        with [Rule FarcadeIntegration.gameOverScreenPattern
                FarcadeIntegration.gameOverHook AfterMatch false;
              Rule FarcadeIntegration.fallbackPattern
                FarcadeIntegration.fallbackHook AfterMatch true].
      cbn [leading_misses anchor length fallbackNotices].
      destruct (test FarcadeIntegration.gameOverScreenPattern d1);
        [reflexivity|].
      destruct (test FarcadeIntegration.fallbackPattern d1); reflexivity.
Qed.

(** ** Where the lazy anchors match *)

Section LazyAnchor.
Implicit Types (l pre mid post s : list N) (re : regex).

(** [k*?] gives the continuation the first rest that it accepts. *)
Lemma lazy_star_first {R : Type} k (cont : list N -> option R) mid rest r :
  all_in k mid ->
  (forall a b, mid = a ++ b -> b <> [] -> cont (b ++ rest) = None) ->
  cont rest = Some r ->
  lazy_star k cont (mid ++ rest) = Some r.
Proof.
  intros Hk Hnone Hrest. induction mid as [|c mid IH].
  - change ([] ++ rest) with rest. destruct rest; simpl; by rewrite Hrest.
  - apply Forall_cons in Hk as [Hc Hk].
    change ((c :: mid) ++ rest) with (c :: (mid ++ rest)).
    cbn [lazy_star].
    assert (cont (c :: (mid ++ rest)) = None) as ->
      by by apply (Hnone [] (c :: mid)).
    rewrite Hc.
    apply IH; [done|]. intros a b -> Hb. by apply (Hnone (c :: a)).
Qed.

(** Left of the first occurrence of [l], no text starts with [l]. *)
Lemma strip_prefix_before_first l pre post a b :
  l <> [] -> includes l (pre ++ removelast l) = false ->
  pre = a ++ b -> b <> [] ->
  strip_prefix l (b ++ l ++ post) = None.
Proof.
  intros Hl Hfirst -> Hb.
  destruct (strip_prefix l (b ++ l ++ post)) as [t|] eqn:E; [|done].
  apply strip_prefix_spec in E.
  pose proof (first_occurrence_spec l (a ++ b) post Hl Hfirst a t) as Hlen.
  rewrite <- app_assoc, E in Hlen. specialize (Hlen eq_refl).
  rewrite length_app in Hlen. destruct b; [done|]. simpl in Hlen. lia.
Qed.

Lemma exec_at re pre s caps rest :
  (forall a b, pre = a ++ b -> b <> [] -> m_nodes re (b ++ s) = None) ->
  m_nodes re s = Some (caps, rest) ->
  exec re (pre ++ s) = Some (Result pre (consumed s rest) caps rest).
Proof.
  intros Hnone Hm. induction pre as [|c pre IH].
  - change ([] ++ s) with s. destruct s; simpl; by rewrite Hm.
  - change ((c :: pre) ++ s) with (c :: (pre ++ s)). cbn [exec].
    assert (m_nodes re (c :: (pre ++ s)) = None) as ->
      by by apply (Hnone [] (c :: pre)).
    rewrite IH; [done|]. intros a b -> Hb. by apply (Hnone (c :: a)).
Qed.

(** The match of [(l1[\s\S]*?l2)]: from the first [l1] to the first
    [l2] after it. *)
Lemma exec_lazy_pair (l1 l2 : list N) pre mid post :
  l1 <> [] -> l2 <> [] ->
  includes l1 (pre ++ removelast l1) = false ->
  includes l2 (mid ++ removelast l2) = false ->
  exec [Capture [Lit l1; StarLazy AnyChar; Lit l2]]
    (pre ++ l1 ++ mid ++ l2 ++ post)
  = Some (Result pre (l1 ++ mid ++ l2) [l1 ++ mid ++ l2] post).
Proof.
  intros H1 H2 Hf1 Hf2.
  assert (consumed (l1 ++ mid ++ l2 ++ post) post = l1 ++ mid ++ l2) as Hc.
  { rewrite <- (consumed_app (l1 ++ mid ++ l2) post).
    by rewrite <- !app_assoc. }
  rewrite <- Hc at 1.
  apply exec_at.
  - intros a b Hab Hb. cbn [m_nodes m_atoms m_atom].
    by rewrite (strip_prefix_before_first l1 pre (mid ++ l2 ++ post) a b).
  - cbn [m_nodes m_atoms m_atom].
    assert (strip_prefix l1 (l1 ++ mid ++ l2 ++ post)
            = Some (mid ++ l2 ++ post)) as ->
      by by apply strip_prefix_spec.
    apply lazy_star_first.
    + unfold all_in. by apply Forall_forall.
    + intros a b Hab Hb.
      by rewrite (strip_prefix_before_first l2 mid post a b).
    + assert (strip_prefix l2 (l2 ++ post) = Some post) as ->
        by by apply strip_prefix_spec.
      by rewrite Hc.
Qed.

End LazyAnchor.

(** X6: where the ready hook goes.  In a document whose first
    title-screen opening [showTitleScreen() {] is followed, after any
    text, by the statement that hides the game elements, the ready rule
    puts its hook right after the first such statement that follows
    that opening, and leaves everything else as it is, later hiding
    statements included. *)
Theorem ready_hook_follows_first_hiding_statement
    (sc : script) (pre mid post : list N) :
  includes titleScreenOpening (pre ++ removelast titleScreenOpening)
  = false ->
  includes hideElementsStatement (mid ++ removelast hideElementsStatement)
  = false ->
  apply_rule (readyRule sc)
    (pre ++ titleScreenOpening ++ mid ++ hideElementsStatement ++ post)
  = pre ++ titleScreenOpening ++ mid ++ hideElementsStatement
    ++ hook (readyRule sc) ++ post.
Proof.
  intros Hopening Hhide.
  assert (anchor (readyRule sc)
          = [Capture [Lit titleScreenOpening; StarLazy AnyChar;
                      Lit hideElementsStatement]]) as Ha by by destruct sc.
  assert (where_ (readyRule sc) = AfterMatch) as Hw by by destruct sc.
  unfold apply_rule, replacer, replace. rewrite Ha, Hw.
  rewrite exec_lazy_pair by done.
  cbn [before matched captures after]. unfold appending.
  by rewrite <- !app_assoc.
Qed.

Lemma ready_hook_follows_first_hiding_statement_witness :
  title_screen_document
  = [] ++ titleScreenOpening ++ lit " a(); " ++ hideElementsStatement
    ++ lit " b(); this.gameElements.forEach(element => element.setVisible(false)); } const game = new Phaser.Game(config);"
  /\ occurrences hideElementsStatement title_screen_document = 2%nat
  /\ apply_rule (readyRule Remix) title_screen_document
     = [] ++ titleScreenOpening ++ lit " a(); " ++ hideElementsStatement
       ++ hook (readyRule Remix)
       ++ lit " b(); this.gameElements.forEach(element => element.setVisible(false)); } const game = new Phaser.Game(config);".
Proof.
  split; [vm_compute; reflexivity|].
  split; [vm_compute; reflexivity|].
  change title_screen_document
    with ([] ++ titleScreenOpening ++ lit " a(); " ++ hideElementsStatement
          ++ lit " b(); this.gameElements.forEach(element => element.setVisible(false)); } const game = new Phaser.Game(config);").
  apply (ready_hook_follows_first_hiding_statement Remix []
           (lit " a(); ")); vm_compute; reflexivity.
Defined.

(** X7: the title-screen anchor is found in a document exactly when
    the document holds the title-screen opening and, somewhere after
    it, the statement that hides the game elements; so, with X3, the
    ready call is added to exactly those documents. *)
Theorem ready_anchor_found_iff (sc : script) (html : list N) :
  test (anchor (readyRule sc)) html = true
  <-> exists pre mid post,
        html = pre ++ titleScreenOpening ++ mid ++ hideElementsStatement
               ++ post.
Proof.
  assert (anchor (readyRule sc)
          = [Capture [Lit titleScreenOpening; StarLazy AnyChar;
                      Lit hideElementsStatement]]) as -> by by destruct sc.
  rewrite test_spec. split.
  - intros (a & u & b & caps & -> & [Hu _]%in_regex_capture).
    destruct Hu as (v1 & r1 & -> & Hv1 & v2 & r2 & -> & _
                    & v3 & r3 & -> & Hv3 & Hr3).
    simpl in Hv1, Hv3, Hr3. subst v1 v3 r3.
    exists a, v2, b. by rewrite app_nil_r, <- !app_assoc.
  - intros (pre & mid & post & ->).
    exists pre, (titleScreenOpening ++ mid ++ hideElementsStatement), post,
      [titleScreenOpening ++ mid ++ hideElementsStatement].
    split; [by rewrite <- !app_assoc|].
    apply in_regex_capture. split; [|done].
    exists titleScreenOpening, (mid ++ hideElementsStatement).
    split; [done|]. split; [done|].
    exists mid, hideElementsStatement. split; [done|].
    split; [by apply Forall_forall|].
    exists hideElementsStatement, []. by rewrite app_nil_r.
Qed.

(** ** The SDK tag rule on its own output *)

Section SdkAgain.

Lemma sdk_at_first_marker sc pre post :
  includes (lit "</head>") (pre ++ removelast (lit "</head>")) = false ->
  value (injectFarcadeSDK_of sc (pre ++ lit "</head>" ++ post))
  = pre ++ farcadeScriptTag_of sc ++ [LF] ++ lit "</head>" ++ post.
Proof.
  intros Hfirst. rewrite injectFarcadeSDK_value.
  assert (includes (lit "</head>") (pre ++ lit "</head>" ++ post) = true)
    as Hin by (apply includes_spec; by exists pre, post).
  destruct (replace_text_literal _
              (farcadeScriptTag_of sc ++ [LF] ++ lit "</head>") _ Hin)
    as (pre' & post' & Hs & Hleft & ->).
  assert (length pre' = length pre) as Hlen.
  { apply Nat.le_antisymm; [by apply (Hleft pre post)|].
    by apply (first_occurrence_spec (lit "</head>") pre post ltac:(done)
                Hfirst pre' post'). }
  apply app_inj_1 in Hs as [-> Hs]; [|done].
  apply app_inv_head in Hs as ->. by rewrite <- !app_assoc.
Qed.

Lemma marker_not_in_tag sc pre :
  includes (lit "</head>") (pre ++ removelast (lit "</head>")) = false ->
  includes (lit "</head>")
    ((pre ++ farcadeScriptTag_of sc ++ [LF]) ++ removelast (lit "</head>"))
  = false.
Proof.
  intros Hpre%occurrences_zero. apply occurrences_zero.
  assert (occurrences (lit "</head>") pre = 0%nat) as Hp.
  { pose proof (occurrences_app_l (lit "</head>") pre
                  (removelast (lit "</head>"))). lia. }
  assert (exists tag', farcadeScriptTag_of sc = 32 :: tag'
                       /\ occurrences (lit "</head>") tag' = 0%nat)
    as (tag' & -> & Htag).
  { destruct sc;
      (eexists; split; [reflexivity | vm_compute; reflexivity]). }
  rewrite <- !app_assoc. cbn [app].
  rewrite (occurrences_sep _ pre 32)
    by (apply not_elem_of_existsb; vm_compute; reflexivity).
  rewrite (occurrences_sep _ tag' LF)
    by (apply not_elem_of_existsb; vm_compute; reflexivity).
  rewrite Hp, Htag. vm_compute. reflexivity.
Qed.

End SdkAgain.

(** X8: the SDK tag rule does not look for its own tag.  Applied to its
    own output, it inserts the script reference a second time, before
    the same head-closing marker; a document that went through the
    rule twice holds two references, one after the other. *)
Theorem sdk_rule_applied_twice (sc : script) (pre post : list N) :
  includes (lit "</head>") (pre ++ removelast (lit "</head>")) = false ->
  value (injectFarcadeSDK_of sc
           (value (injectFarcadeSDK_of sc (pre ++ lit "</head>" ++ post))))
  = pre ++ farcadeScriptTag_of sc ++ [LF]
    ++ farcadeScriptTag_of sc ++ [LF] ++ lit "</head>" ++ post.
Proof.
  intros Hfirst. rewrite sdk_at_first_marker by done.
  replace (pre ++ farcadeScriptTag_of sc ++ [LF] ++ lit "</head>" ++ post)
    with ((pre ++ farcadeScriptTag_of sc ++ [LF]) ++ lit "</head>" ++ post)
    by by rewrite <- !app_assoc.
  rewrite sdk_at_first_marker by by apply marker_not_in_tag.
  by rewrite <- !app_assoc.
Qed.

Lemma sdk_rule_applied_twice_witness :
  plain_document = lit "<html><head>" ++ lit "</head>"
                   ++ lit "<body></body></html>"
  /\ occurrences (farcadeScriptTag_of Remix)
       (value (injectFarcadeSDK_of Remix
                 (value (injectFarcadeSDK_of Remix plain_document))))
     = 2%nat
  /\ value (injectFarcadeSDK_of Remix
              (value (injectFarcadeSDK_of Remix
                        (lit "<html><head>" ++ lit "</head>"
                         ++ lit "<body></body></html>"))))
     = lit "<html><head>" ++ farcadeScriptTag_of Remix ++ [LF]
       ++ farcadeScriptTag_of Remix ++ [LF] ++ lit "</head>"
       ++ lit "<body></body></html>".
Proof.
  split; [vm_compute; reflexivity|].
  split; [vm_compute; reflexivity|].
  apply (sdk_rule_applied_twice Remix (lit "<html><head>")
           (lit "<body></body></html>")).
  vm_compute; reflexivity.
Defined.

(** ** The fallback anchors of the two scripts *)

(** X9: the first fallback of remixIntegration.js asks for more than
    that of the other script: every document in which its anchor (the
    listeners removed, then the [pointerdown] handler, [startGame] and
    the end of the handler) is found is one in which the fallback
    anchor of the other script is found too. *)
Theorem alternative_anchor_implies_fallback_anchor (d : list N) :
  test (firstFallbackAnchor Remix) d = true ->
  test (firstFallbackAnchor Farcade) d = true.
Proof.
  rewrite !test_spec.
  intros (a & u & b & caps & -> & [Hu _]%in_regex_capture).
  destruct Hu as (v1 & r1 & -> & Hv1 & v2 & r2 & -> & _
                  & v3 & r3 & -> & Hv3 & v4 & r4 & -> & _
                  & v5 & r5 & -> & Hv5 & v6 & r6 & -> & _
                  & v7 & r7 & -> & Hv7 & Hr7).
  simpl in Hv1, Hv3, Hv5, Hv7, Hr7. subst v1 v3 v5 v7 r7.
  eexists a, _, b, _. split; [reflexivity|].
  apply in_regex_capture. split; [|reflexivity].
  eexists (lit "this.playButton.removeAllListeners();"), _.
  split; [reflexivity|]. split; [done|].
  eexists (v2 ++ lit "this.playButton.on('pointerdown', () => {" ++ v4), _.
  split; [by rewrite <- !app_assoc|]. split; [by apply Forall_forall|].
  eexists (lit "this.startGame();"), _.
  split; [reflexivity|]. split; [done|].
  eexists v6, _. split; [reflexivity|]. split; [by apply Forall_forall|].
  exists (lit "});"), []. done.
Qed.

Lemma alternative_anchor_implies_fallback_anchor_witness :
  test (firstFallbackAnchor Remix) fallback_only_document = true
  /\ test (firstFallbackAnchor Farcade) fallback_only_document = true.
Proof.
  split; [vm_compute; reflexivity|].
  apply (alternative_anchor_implies_fallback_anchor fallback_only_document).
  vm_compute; reflexivity.
Defined.

(** ** The run *)

(** X10: the run never throws and writes nowhere but to the
    destination: in every world, whatever the source holds and whether
    reading or writing fails, it returns normally, and every file other
    than [index.farcade.html] is left as it was, absent files staying
    absent. *)
Theorem run_touches_only_destination
    (sc : script) (w : World) (path : string) :
  path <> destPath ->
  (integrateFarcade_of sc w).1 = Returns tt
  /\ files (integrateFarcade_of sc w).2 !! path = files w !! path.
Proof.
  intros Hpath. rewrite integrateFarcade_of_unfold. by apply run_frame.
Qed.

Lemma run_touches_only_destination_witness :
  sourcePath <> destPath
  /\ (integrateFarcade_of Remix used_world).1 = Returns tt
  /\ files (integrateFarcade_of Remix used_world).2 !! sourcePath
     = Some plain_document.
Proof.
  split; [discriminate|].
  destruct (run_touches_only_destination Remix used_world sourcePath)
    as [H1 H2]; [discriminate|].
  split; [exact H1|]. rewrite H2. vm_compute. reflexivity.
Defined.

(** X11: an empty source file is taken for one that could not be read.
    [readFile] succeeds and hands the empty text to the run, which
    finds it falsy: it prints the start line and [Could not read HTML
    template. Aborting.] (and no [Error reading file] line, no error
    having been caught), applies no rule, writes nothing and returns
    normally. *)
Theorem empty_source_taken_for_unreadable (sc : script) (w : World) :
  fs_readFileSync sourcePath w = Returns [] ->
  readFile sourcePath w = (Returns (Some []), w)
  /\ integrateFarcade_of sc w
     = (Returns tt,
        says [ (LOG, "Starting AESOPNE Farcade integration process...");
               (ERROR, "Could not read HTML template. Aborting.") ] w).
Proof.
  intros Hread. split.
  - unfold readFile. by rewrite Hread.
  - rewrite integrateFarcade_of_unfold. by apply run_empty_source.
Qed.

Lemma empty_source_taken_for_unreadable_witness :
  fs_readFileSync sourcePath empty_source_world = Returns []
  /\ files (integrateFarcade_of Remix empty_source_world).2
     = files empty_source_world
  /\ console (integrateFarcade_of Remix empty_source_world).2
     = [ (LOG, "Starting AESOPNE Farcade integration process...");
         (ERROR, "Could not read HTML template. Aborting.") ].
Proof.
  split; [vm_compute; reflexivity|].
  destruct (empty_source_taken_for_unreadable Remix empty_source_world)
    as [_ ->]; [vm_compute; reflexivity|].
  split; reflexivity.
Defined.

(** X12: what a run prints once the source is read and not empty: the
    start line, the line of the SDK tag rule, the lines of the
    behaviour rules, one line about the destination file, and the six
    closing lines.  The closing lines, [integration complete!] first,
    are printed whether the file was written or not: after a failed
    write they follow the error line. *)
Theorem completion_announced_whatever_the_write
    (sc : script) (w : World) (html : list N) :
  fs_readFileSync sourcePath w = Returns html ->
  html <> [] ->
  console (integrateFarcade_of sc w).2
  = console w
    ++ [ (LOG, "Starting AESOPNE Farcade integration process...");
         (LOG, "Injecting Farcade SDK script tag...") ]
    ++ transcript
         (injectFarcadeGameLogic_of sc (value (injectFarcadeSDK_of sc html)))
    ++ [ match write_faults w destPath with
         | NoFault => (LOG, "Successfully created file: index.farcade.html")
         | _ => (ERROR, "Error writing file index.farcade.html:")
         end;
         (LOG, "AESOPNE Farcade integration complete! Output file: index.farcade.html");
         (LOG, "The integrated version will:");
         (LOG, "- Signal ready when the title screen is interactive");
         (LOG, "- Submit height in meters as the score on game over");
         (LOG, "- Handle play again requests by restarting the game");
         (LOG, "- Handle mute/unmute requests via Phaser sound manager") ].
Proof.
  intros Hread Hne. rewrite integrateFarcade_of_unfold.
  assert (transcript (injectFarcadeSDK_of sc html)
          = [(LOG, "Injecting Farcade SDK script tag...")]) as Hsdk
    by by destruct sc.
  destruct (write_faults w destPath) eqn:Ew.
  - destruct (run_success RemixIntegration.config (injectFarcadeSDK_of sc)
                (injectFarcadeGameLogic_of sc) w html Hread Hne Ew)
      as (_ & _ & ->).
    rewrite Hsdk. reflexivity.
  - destruct (run_write_failure RemixIntegration.config
                (injectFarcadeSDK_of sc) (injectFarcadeGameLogic_of sc)
                w html Hread Hne) as (_ & _ & ->);
      [unfold destPath in Ew; by rewrite Ew|].
    rewrite Hsdk. reflexivity.
  - destruct (run_write_failure RemixIntegration.config
                (injectFarcadeSDK_of sc) (injectFarcadeGameLogic_of sc)
                w html Hread Hne) as (_ & _ & ->);
      [unfold destPath in Ew; by rewrite Ew|].
    rewrite Hsdk. reflexivity.
Qed.

Lemma completion_announced_whatever_the_write_witness :
  fs_readFileSync sourcePath unwritable_world = Returns plain_document
  /\ plain_document <> []
  /\ console (integrateFarcade_of Remix unwritable_world).2
     = [ (LOG, "Starting AESOPNE Farcade integration process...");
         (LOG, "Injecting Farcade SDK script tag...");
         (LOG, "Injecting Farcade SDK game logic...");
         (LOG, "Primary gameOver pattern not found, trying alternative pattern...");
         (LOG, "Alternative pattern not found, trying end-of-method pattern...");
         (ERROR, "Error writing file index.farcade.html:");
         (LOG, "AESOPNE Farcade integration complete! Output file: index.farcade.html");
         (LOG, "The integrated version will:");
         (LOG, "- Signal ready when the title screen is interactive");
         (LOG, "- Submit height in meters as the score on game over");
         (LOG, "- Handle play again requests by restarting the game");
         (LOG, "- Handle mute/unmute requests via Phaser sound manager") ].
Proof.
  split; [vm_compute; reflexivity|].
  split; [discriminate|].
  rewrite (completion_announced_whatever_the_write Remix unwritable_world
             plain_document); [|vm_compute; reflexivity|discriminate].
  vm_compute. reflexivity.
Defined.

(** ** The last fallback of remixIntegration.js *)

(** X13: where the end-of-method hook goes.  When the end-of-method
    anchor is found, the rule puts its hook between the two groups of
    the first match: after the [});] that ends the first group (the
    method from its opening to the end of the [pointerdown] handler),
    and before the white space and the closing brace of the second
    group, which are put back as they were. *)
Theorem end_of_method_hook_before_closing_brace (s : list N) :
  test RemixIntegration.endOfMethodPattern s = true ->
  exists pre body ws post,
    s = pre ++ (body ++ lit "});") ++ (ws ++ lit "}") ++ post
    /\ Forall (fun c => isWhiteSpace c = true) ws
    /\ is_prefix (lit "showGameOverScreen() {") body = true
    /\ apply_rule
         (Rule RemixIntegration.endOfMethodPattern
            RemixIntegration.endOfMethodHook BetweenGroups true) s
       = pre ++ (body ++ lit "});") ++ RemixIntegration.endOfMethodHook
         ++ (ws ++ lit "}") ++ post.
Proof.
  intros Ht. unfold apply_rule, replacer. cbn [anchor hook where_].
  unfold RemixIntegration.endOfMethodPattern in *.
  apply (replace_between_shape _ _ RemixIntegration.endOfMethodHook) in Ht
    as (pre & g1 & g2 & post & -> & Hg1 & Hg2 & ->).
  destruct Hg1 as (v1 & r1 & -> & Hv1 & v2 & r2 & -> & _
                   & v3 & r3 & -> & Hv3 & v4 & r4 & -> & _
                   & v5 & r5 & -> & Hv5 & Hr5).
  destruct Hg2 as (ws & r6 & -> & Hws & v7 & r7 & -> & Hv7 & Hr7).
  simpl in Hv1, Hv3, Hv5, Hr5, Hv7, Hr7. subst v1 v3 v5 r5 v7 r7.
  exists pre,
    (lit "showGameOverScreen() {" ++ v2
     ++ lit "this.playButton.on('pointerdown'" ++ v4), ws, post.
  rewrite !app_nil_r.
  split; [by rewrite <- !app_assoc|]. split; [exact Hws|].
  split; [by apply is_prefix_app|]. by rewrite <- !app_assoc.
Qed.

Lemma end_of_method_hook_before_closing_brace_witness :
  test RemixIntegration.endOfMethodPattern fallback_only_document = true
  /\ exists pre body ws post,
       fallback_only_document
       = pre ++ (body ++ lit "});") ++ (ws ++ lit "}") ++ post
       /\ Forall (fun c => isWhiteSpace c = true) ws
       /\ is_prefix (lit "showGameOverScreen() {") body = true
       /\ apply_rule
            (Rule RemixIntegration.endOfMethodPattern
               RemixIntegration.endOfMethodHook BetweenGroups true)
            fallback_only_document
          = pre ++ (body ++ lit "});") ++ RemixIntegration.endOfMethodHook
            ++ (ws ++ lit "}") ++ post.
Proof.
  split; [vm_compute; reflexivity|].
  apply (end_of_method_hook_before_closing_brace fallback_only_document).
  vm_compute; reflexivity.
Defined.
